(** * Board access control of the Trello MCP server

    A shallow embedding of [src/utils/board-access-control.ts],
    [src/utils/card-access-control.ts], of the tool handlers that gate
    their remote calls through them ([get_card], [get_list],
    [delete_card], [move_card_to_list], [move_list_to_board],
    [move_all_cards]) and of the start-up configuration [src/config.ts].

    The TypeScript code is asynchronous and throws exceptions.  One request
    is modelled as a computation in a state-and-exception monad: the state
    holds the module-level [boardIdCache], the configuration object, the
    state of the remote Trello system, the sequence of remote calls issued
    so far and the lines written with [console.error].  An [await] is a
    sequencing point of that monad, and requests are run one at a time.

    The resource services reached through [ServiceFactory] are not part of
    these sources: every definition and theorem takes them as a parameter
    [svc], over an arbitrary remote system.  [ServiceFactory.getInstance()]
    and its [get...Service()] accessors are taken to return them. *)

From stdpp Require Import base gmap strings list.

(** ** JavaScript values and coercions used by the code *)

(** The values an [any]-typed argument field may hold. *)
Inductive JsValue :=
| JsUndefined
| JsNull
| JsBool (b : bool)
| JsNumber (n : Z)
| JsString (s : string).

(** [ToBoolean] on a string: only the empty string is falsy. *)
Definition truthy_string (s : string) : bool :=
  match s with
  | EmptyString => false
  | String _ _ => true
  end.

(** [ToBoolean], as applied by [!v] and [if (v)]. *)
Definition ToBoolean (v : JsValue) : bool :=
  match v with
  | JsUndefined | JsNull => false
  | JsBool b => b
  | JsNumber n => negb (n =? 0)%Z
  | JsString s => truthy_string s
  end.

(** An optional string property ([string | undefined]) in a condition. *)
Definition truthy_opt (o : option string) : bool :=
  match o with
  | None => false
  | Some s => truthy_string s
  end.

(** An optional string property interpolated in a template literal. *)
Definition interpolate (o : option string) : string :=
  match o with
  | None => "undefined"
  | Some s => s
  end.

(** The double quote character, as a one-character string. *)
Definition dquote : string := String (Ascii.ascii_of_nat 34) EmptyString.

(** [Array.prototype.includes] on an array of strings. *)
Fixpoint includes (xs : list string) (x : string) : bool :=
  match xs with
  | [] => false
  | y :: ys => if String.eqb y x then true else includes ys x
  end.

(** [Array.prototype.join]. *)
Fixpoint join (sep : string) (xs : list string) : string :=
  match xs with
  | [] => ""
  | [x] => x
  | x :: rest => x +:+ sep +:+ join sep rest
  end.

(** ** Errors *)

(** What a resource service throws when a remote call fails: an [Error]
    (or a subclass of it defined by the service layer) with its message, or
    some other value, kept as its [String(...)] rendering.  The class
    [BoardAccessError] is declared by the access-control module itself and
    is constructed nowhere else. *)
Inductive RemoteFailure :=
| RemoteError (message : string)
| RemoteValue (repr : string).

(** The values thrown through the gate and the handlers.  An error object
    holds a message (and a class); [BoardAccessError] adds no field to
    [Error]. *)
Inductive exn :=
| BoardAccessError (message : string)
| Error (message : string)
| ServiceFailure (f : RemoteFailure).

(** [new BoardAccessError(boardId, operation, allowedBoardsKey)]. *)
Definition new_BoardAccessError (boardId operation allowedBoardsKey : string) : exn :=
  BoardAccessError
    ("Access denied: Operation '" +:+ operation +:+ "' on board '" +:+ boardId
     +:+ "' is not allowed by the configured access control group: "
     +:+ dquote +:+ allowedBoardsKey +:+ dquote).

(** [error instanceof BoardAccessError]. *)
Definition instanceof_BoardAccessError (error : exn) : bool :=
  match error with
  | BoardAccessError _ => true
  | _ => false
  end.

(** [error instanceof Error ? error.message : String(error)]. *)
Definition message_or_String (error : exn) : string :=
  match error with
  | BoardAccessError m => m
  | Error m => m
  | ServiceFailure (RemoteError m) => m
  | ServiceFailure (RemoteValue r) => r
  end.

(** The message of an error object ([None] for a thrown non-error). *)
Definition exn_message (error : exn) : option string :=
  match error with
  | BoardAccessError m => Some m
  | Error m => Some m
  | ServiceFailure (RemoteError m) => Some m
  | ServiceFailure (RemoteValue _) => None
  end.

(** An error carries a piece of text when its message contains it. *)
Definition carries (error : exn) (s : string) : Prop :=
  exists pre post, exn_message error = Some (pre +:+ s +:+ post).

(** ** Configuration ([config.ts]) *)

(** The fields of [Config] read by the gate: [trello.configPath],
    [trello.allowedBoardsKey], [trello.allowedBoardIds] and [debug]. *)
Record Config := mkConfig {
  configPath : option string;
  allowedBoardsKey : option string;
  allowedBoardIds : option (list string);
  debug : bool
}.

(** ** Remote entities and resource services *)

Record Board := mkBoard { board_id : string }.
Record Card := mkCard { card_id : string; card_idBoard : string }.
Record TrelloList := mkList { list_id : string; list_idBoard : string }.

(** A remote call: it answers or fails, and may change the remote system. *)
Definition Remote (R A : Type) : Type := R -> (RemoteFailure + A) * R.

(** The methods of the board, card and list services used by the gate and
    by the modelled handlers.  The remote system is any type [R]. *)
Record Services (R : Type) := mkServices {
  getBoard : string -> Remote R Board;
  getCard : string -> Remote R Card;
  getList : string -> Remote R TrelloList;
  deleteCard : string -> Remote R unit;
  moveCardToList : string -> string -> Remote R Card;
  moveListToBoard : string -> string -> Remote R TrelloList;
  moveAllCards : string -> string -> option string -> Remote R unit
}.

Arguments getBoard {R}.
Arguments getCard {R}.
Arguments getList {R}.
Arguments deleteCard {R}.
Arguments moveCardToList {R}.
Arguments moveListToBoard {R}.
Arguments moveAllCards {R}.

(** The remote calls, as recorded in the order they are issued. *)
Inductive Call :=
| CallGetBoard (id : string)
| CallGetCard (id : string)
| CallGetList (id : string)
| CallDeleteCard (id : string)
| CallMoveCardToList (cardId listId : string)
| CallMoveListToBoard (listId boardId : string)
| CallMoveAllCards (sourceListId destinationListId : string) (boardId : option string).

(** The calls that change the remote system, as opposed to lookups. *)
Definition is_mutation (c : Call) : bool :=
  match c with
  | CallGetBoard _ | CallGetCard _ | CallGetList _ => false
  | _ => true
  end.

(** A [console.error] call, with the error object passed as second
    argument when there is one. *)
Inductive ConsoleEntry :=
| ConsoleLine (line : string)
| ConsoleLineWith (line : string) (error : exn).

(** ** Process state

    [config] and [boardIdCache] are the module-level objects of the process;
    [remote] is the remote system; [calls] and [console] are the trace of
    what the process did to the outside: the remote calls it issued and the
    lines it wrote, oldest first. *)

Record State (R : Type) := mkState {
  config : Config;
  boardIdCache : gmap string string;
  remote : R;
  calls : list Call;
  console : list ConsoleEntry
}.

Arguments mkState {R}.
Arguments config {R}.
Arguments boardIdCache {R}.
Arguments remote {R}.
Arguments calls {R}.
Arguments console {R}.

(** ** The monad of one request *)

Inductive Outcome (A : Type) :=
| Returned (a : A)
| Threw (error : exn).

Arguments Returned {A}.
Arguments Threw {A}.

Definition M (R A : Type) : Type := State R -> Outcome A * State R.

Definition ret {R A} (a : A) : M R A := fun st => (Returned a, st).

Definition throw {R A} (error : exn) : M R A := fun st => (Threw error, st).

Definition bind {R A B} (m : M R A) (k : A -> M R B) : M R B :=
  fun st =>
    match m st with
    | (Returned a, st') => k a st'
    | (Threw error, st') => (Threw error, st')
    end.

(** [try { body } catch (error) { handler }]. *)
Definition try_catch {R A} (body : M R A) (handler : exn -> M R A) : M R A :=
  fun st =>
    match body st with
    | (Returned a, st') => (Returned a, st')
    | (Threw error, st') => handler error st'
    end.

Declare Scope js_scope.
Delimit Scope js_scope with js.
Notation "x <- c1 ;; c2" := (bind c1 (fun x => c2))
  (at level 100, c1 at next level, right associativity) : js_scope.
Notation "c1 ;;; c2" := (bind c1 (fun _ => c2))
  (at level 100, right associativity) : js_scope.
Local Open Scope js_scope.

Definition get_config {R} : M R Config := fun st => (Returned (config st), st).

(** [boardIdCache.get(key)]. *)
Definition cache_get {R} (key : string) : M R (option string) :=
  fun st => (Returned (boardIdCache st !! key), st).

(** [boardIdCache.set(key, value)]. *)
Definition cache_set {R} (key value : string) : M R unit :=
  fun st =>
    (Returned tt,
     mkState (config st) (<[key := value]> (boardIdCache st)) (remote st)
             (calls st) (console st)).

Definition console_error {R} (entry : ConsoleEntry) : M R unit :=
  fun st =>
    (Returned tt,
     mkState (config st) (boardIdCache st) (remote st) (calls st)
             (console st ++ [entry])).

(** [await service.method(...)]: the call is recorded, the remote system
    moves, and a failure is thrown. *)
Definition await_remote {R A} (c : Call) (f : Remote R A) : M R A :=
  fun st =>
    let '(answer, w) := f (remote st) in
    let st' := mkState (config st) (boardIdCache st) w (calls st ++ [c]) (console st) in
    match answer with
    | inr a => (Returned a, st')
    | inl failure => (Threw (ServiceFailure failure), st')
    end.

(** ** [board-access-control.ts] and [card-access-control.ts] *)

Section Gate.

Context {R : Type} (svc : Services R).

Definition fetchBoardNormalId (shortOrNormalID : string) : M R string :=
  cachedId <- cache_get shortOrNormalID ;;
  match cachedId with
  | Some cachedId => ret cachedId
  | None =>
      try_catch
        (board <- await_remote (CallGetBoard shortOrNormalID)
                               (getBoard svc shortOrNormalID) ;;
         let boardId := board_id board in
         cache_set shortOrNormalID boardId ;;;
         ret boardId)
        (fun _ =>
           throw (new_BoardAccessError shortOrNormalID "getBoard" "board_not_found"))
  end.

(** The [configSource] text of the diagnostic. *)
Definition configSource (cfg : Config) : string :=
  if truthy_opt (configPath cfg) && truthy_opt (allowedBoardsKey cfg)
  then "YAML config (" +:+ interpolate (configPath cfg) +:+ ":"
       +:+ interpolate (allowedBoardsKey cfg) +:+ ")"
  else "configuration".

Definition checkBoardAccess (boardId operation : string) (fetchNormalBoardId : bool)
  : M R bool :=
  boardId <- (if fetchNormalBoardId then fetchBoardNormalId boardId else ret boardId) ;;
  cfg <- get_config ;;
  match allowedBoardIds cfg with
  | None => ret true
  | Some ids =>
      if (length ids =? 0)%nat then ret true
      else if includes ids boardId then ret true
      else
        (if debug cfg then
           console_error
             (ConsoleLine ("[UNAUTHORIZED] Attempted " +:+ operation +:+ " on board "
                           +:+ boardId +:+ " which is not in the allowed list from "
                           +:+ configSource cfg +:+ ".")) ;;;
           console_error
             (ConsoleLine ("[UNAUTHORIZED] Allowed board IDs: " +:+ join ", " ids))
         else ret tt) ;;;
        throw (new_BoardAccessError boardId operation (interpolate (allowedBoardsKey cfg)))
  end.

Definition checkCardAccess (cardId operation : string) : M R unit :=
  try_catch
    (card <- await_remote (CallGetCard cardId) (getCard svc cardId) ;;
     checkBoardAccess (card_idBoard card)
                      (operation +:+ " (card " +:+ cardId +:+ ")") true ;;;
     ret tt)
    (fun error =>
       if instanceof_BoardAccessError error then throw error
       else
         console_error
           (ConsoleLineWith ("Error checking card access for " +:+ cardId +:+ ":") error) ;;;
         throw (Error ("Unable to verify access for card " +:+ cardId +:+ ": "
                       +:+ message_or_String error))).

Definition checkListAccess (listId operation : string) : M R unit :=
  try_catch
    (list <- await_remote (CallGetList listId) (getList svc listId) ;;
     checkBoardAccess (list_idBoard list)
                      (operation +:+ " (list " +:+ listId +:+ ")") true ;;;
     ret tt)
    (fun error =>
       if instanceof_BoardAccessError error then throw error
       else
         console_error
           (ConsoleLineWith ("Error checking list access for " +:+ listId +:+ ":") error) ;;;
         throw (Error ("Unable to verify access for list " +:+ listId +:+ ": "
                       +:+ message_or_String error))).

End Gate.

(** ** Tool handlers *)

(** What a handler resolves to: the entity returned by the service, or a
    [{ success: true, message }] object. *)
Inductive HandlerResult :=
| ResultCard (card : Card)
| ResultList (list : TrelloList)
| ResultSuccess (message : string).

(** The properties of [args] read by each modelled handler. *)
Record DeleteCardArgs := mkDeleteCardArgs {
  dc_cardId : string;
  dc_confirm : JsValue
}.

Record MoveCardToListArgs := mkMoveCardToListArgs {
  mc_cardId : string;
  mc_listId : string
}.

Record MoveListToBoardArgs := mkMoveListToBoardArgs {
  ml_listId : string;
  ml_boardId : string
}.

Record MoveAllCardsArgs := mkMoveAllCardsArgs {
  ma_sourceListId : string;
  ma_destinationListId : string;
  ma_boardId : option string
}.

(** [card-tool-handlers.ts] *)
Module cardToolHandlers.
Section Handlers.

Context {R : Type} (svc : Services R).

(** [get_card] reads [args.cardId]. *)
Definition get_card (cardId : string) : M R HandlerResult :=
  checkCardAccess svc cardId "get_card" ;;;
  card <- await_remote (CallGetCard cardId) (getCard svc cardId) ;;
  ret (ResultCard card).

Definition delete_card (args : DeleteCardArgs) : M R HandlerResult :=
  if negb (ToBoolean (dc_confirm args)) then
    throw (Error "Deletion requires confirmation. Set confirm: true to proceed.")
  else
    checkCardAccess svc (dc_cardId args) "delete_card" ;;;
    await_remote (CallDeleteCard (dc_cardId args)) (deleteCard svc (dc_cardId args)) ;;;
    ret (ResultSuccess "Card deleted successfully").

Definition move_card_to_list (args : MoveCardToListArgs) : M R HandlerResult :=
  checkCardAccess svc (mc_cardId args) "move_card_to_list" ;;;
  checkListAccess svc (mc_listId args) "move_card_to_list (target)" ;;;
  card <- await_remote (CallMoveCardToList (mc_cardId args) (mc_listId args))
                       (moveCardToList svc (mc_cardId args) (mc_listId args)) ;;
  ret (ResultCard card).

End Handlers.
End cardToolHandlers.

(** The list tool handlers. *)
Module listToolHandlers.
Section Handlers.

Context {R : Type} (svc : Services R).

(** [get_list] reads [args.listId]. *)
Definition get_list (listId : string) : M R HandlerResult :=
  checkListAccess svc listId "get_list" ;;;
  list <- await_remote (CallGetList listId) (getList svc listId) ;;
  ret (ResultList list).

Definition move_list_to_board (args : MoveListToBoardArgs) : M R HandlerResult :=
  checkListAccess svc (ml_listId args) "move_list_to_board" ;;;
  checkBoardAccess svc (ml_boardId args) "move_list_to_board (target board)" true ;;;
  list <- await_remote (CallMoveListToBoard (ml_listId args) (ml_boardId args))
                       (moveListToBoard svc (ml_listId args) (ml_boardId args)) ;;
  ret (ResultList list).

Definition move_all_cards (args : MoveAllCardsArgs) : M R HandlerResult :=
  checkListAccess svc (ma_sourceListId args) "move_all_cards (source)" ;;;
  checkListAccess svc (ma_destinationListId args) "move_all_cards (destination)" ;;;
  match ma_boardId args with
  | Some boardId =>
      if truthy_string boardId
      then checkBoardAccess svc boardId "move_all_cards (target board)" true ;;; ret tt
      else ret tt
  | None => ret tt
  end ;;;
  await_remote
    (CallMoveAllCards (ma_sourceListId args) (ma_destinationListId args) (ma_boardId args))
    (moveAllCards svc (ma_sourceListId args) (ma_destinationListId args) (ma_boardId args)) ;;;
  ret (ResultSuccess "All cards have been moved to the destination list").

End Handlers.
End listToolHandlers.

(** ** A concrete remote system

    Boards, cards and lists held in tables, used to run the gate and the
    handlers on examples.  A board is found under its canonical id and
    under its short id; moving a card or a list rewrites its owning board. *)

Record Trello := mkTrello {
  boards : list (string * string);   (* short id, canonical id *)
  cards : list (string * string);    (* card id, owning board *)
  lists : list (string * string)     (* list id, owning board *)
}.

Fixpoint assoc (key : string) (table : list (string * string)) : option string :=
  match table with
  | [] => None
  | (k, v) :: rest => if String.eqb k key then Some v else assoc key rest
  end.

Fixpoint reassign (key value : string) (table : list (string * string))
  : list (string * string) :=
  match table with
  | [] => []
  | (k, v) :: rest =>
      (k, if String.eqb k key then value else v) :: reassign key value rest
  end.

Definition find_board (id : string) (t : Trello) : option string :=
  match assoc id (boards t) with
  | Some canonical => Some canonical
  | None => if existsb (fun b => String.eqb (snd b) id) (boards t) then Some id else None
  end.

Definition not_found {A} (t : Trello) : (RemoteFailure + A) * Trello :=
  (inl (RemoteError "Request failed with status code 404"), t).

(** Modelled from the spec: the board, card and list services behind
    [ServiceFactory], which are not among the sources.  [getBoard],
    [getCard] and [getList] answer with the entity, whose [id] is canonical
    and whose [idBoard] is the owning board, and fail with a lookup error
    when the id does not exist. *)
Definition trelloServices : Services Trello := {|
  getBoard id t :=
    match find_board id t with
    | Some canonical => (inr (mkBoard canonical), t)
    | None => not_found t
    end;
  getCard id t :=
    match assoc id (cards t) with
    | Some b => (inr (mkCard id b), t)
    | None => not_found t
    end;
  getList id t :=
    match assoc id (lists t) with
    | Some b => (inr (mkList id b), t)
    | None => not_found t
    end;
  deleteCard id t :=
    match assoc id (cards t) with
    | Some _ =>
        (inr tt, mkTrello (boards t)
                          (List.filter (fun c => negb (String.eqb (fst c) id)) (cards t))
                          (lists t))
    | None => not_found t
    end;
  moveCardToList cardId listId t :=
    match assoc cardId (cards t), assoc listId (lists t) with
    | Some _, Some b =>
        (inr (mkCard cardId b),
         mkTrello (boards t) (reassign cardId b (cards t)) (lists t))
    | _, _ => not_found t
    end;
  moveListToBoard listId boardId t :=
    match assoc listId (lists t), find_board boardId t with
    | Some _, Some b =>
        (inr (mkList listId b),
         mkTrello (boards t) (cards t) (reassign listId b (lists t)))
    | _, _ => not_found t
    end;
  moveAllCards sourceListId destinationListId boardId t :=
    match assoc sourceListId (lists t), assoc destinationListId (lists t) with
    | Some _, Some _ => (inr tt, t)
    | _, _ => not_found t
    end
|}.

(** Two boards ([B1] also known as [b1], and [B3]), a card on [B1], a list
    on each board. *)
Definition sample_trello : Trello :=
  mkTrello [("b1", "B1"); ("b3", "B3")]
           [("C1", "B1")]
           [("L1", "B1"); ("L2", "B3")].

Definition initial_state (cfg : Config) (t : Trello) : State Trello :=
  mkState cfg ∅ t [] [].

(** An allow-list with the single board [B1], read under the key [work]. *)
Definition sample_config : Config :=
  mkConfig (Some "boards.yaml") (Some "work") (Some ["B1"]) false.

(** No allow-list configured. *)
Definition open_config : Config := mkConfig None None None false.

(** ** Start-up configuration ([config.ts])

    The module reads the command line and the environment, loads the
    allow-list from a YAML file and validates the credentials.  The file
    system, the YAML parser and the text of the engine's [TypeError] are
    taken as a parameter, a [Runtime]. *)

(** [String.prototype.split] with a one-character separator.  The
    separator used is ASCII, so splitting the UTF-8 bytes splits the
    string. *)
Fixpoint split (sep : Ascii.ascii) (s : string) : list string :=
  match s with
  | EmptyString => [EmptyString]
  | String c rest =>
      if Ascii.eqb c sep then EmptyString :: split sep rest
      else match split sep rest with
           | [] => [String c EmptyString]
           | first :: others => String c first :: others
           end
  end.

Definition equals_sign : Ascii.ascii := Ascii.ascii_of_nat 61.

(** A letter [A]..[Z] to lower case; every other byte stays. *)
Definition lower_ascii (c : Ascii.ascii) : Ascii.ascii :=
  let n := Ascii.nat_of_ascii c in
  if (65 <=? n)%nat && (n <=? 90)%nat then Ascii.ascii_of_nat (n + 32) else c.

(** [String.prototype.toLowerCase], on the ASCII letters.  No character
    outside ASCII has one of [t], [r], [u], [e] as its lower case, so the
    comparison of the result with ['true'] is the one of the code. *)
Fixpoint toLowerCase (s : string) : string :=
  match s with
  | EmptyString => EmptyString
  | String c rest => String (lower_ascii c) (toLowerCase rest)
  end.

(** [a || b] on two optional strings. *)
Definition or_else (a b : option string) : option string :=
  if truthy_opt a then a else b.

(** [a || 'literal'] on an optional string. *)
Definition or_default (a : option string) (literal : string) : string :=
  match a with
  | Some s => if truthy_string s then s else literal
  | None => literal
  end.

(** [envArgs[key] = value] on the plain object [envArgs]: an own property
    is written, except under the name [__proto__], whose setter ignores a
    string. *)
Definition set_property (key value : string) (object : gmap string string)
  : gmap string string :=
  if String.eqb key "__proto__" then object else <[key := value]> object.

(** The loop over [args = process.argv.slice(2)] that fills [envArgs]:
    an [--env] followed by one more argument consumes that argument. *)
Fixpoint parse_env_args (args : list string) (envArgs : gmap string string)
  : gmap string string :=
  match args with
  | [] => envArgs
  | arg :: rest =>
      if String.eqb arg "--env" then
        match rest with
        | [] => envArgs
        | assignment :: rest' =>
            parse_env_args rest'
              (match split equals_sign assignment with
               | key :: value :: _ =>
                   if truthy_string key && truthy_string value
                   then set_property key value envArgs
                   else envArgs
               | _ => envArgs
               end)
        end
      else parse_env_args rest envArgs
  end.

(** [envArgs], from [process.argv]. *)
Definition envArgs (argv : list string) : gmap string string :=
  parse_env_args (drop 2 argv) ∅.

(** A value produced by the YAML parser: a scalar, a sequence, a mapping,
    or some other value (a float, a date), of which only the truthiness
    matters here. *)
#[local] Set Warnings "-register-all".
Inductive Yaml :=
| YScalar (v : JsValue)
| YSeq (items : list Yaml)
| YMap (fields : list (string * Yaml))
| YOther (truthy : bool).
#[local] Set Warnings "+register-all".

(** What [yaml.load] returns for a document: nothing ([undefined] for an
    empty file, [null] for a null document), a mapping, as the cast to
    [Record<string, BoardConfig[]>] has it, or any other value, given by
    what reading its properties yields. *)
Inductive Document :=
| DocUndefined
| DocNull
| DocMapping (fields : list (string * Yaml))
| DocOther (read : string -> Yaml).

(** The world [config.ts] runs in.  [readFileSync] and [yaml_load] answer
    or throw an [Error] with a message; [typeError v k] is the message of
    the [TypeError] thrown on reading the property [k] of [v], for [v]
    [undefined] or [null]. *)
Record Runtime := mkRuntime {
  existsSync : string -> bool;
  readFileSync : string -> string + string;
  yaml_load : string -> string + Document;
  typeError : JsValue -> string -> string
}.

Fixpoint lookup_field (key : string) (fields : list (string * Yaml)) : option Yaml :=
  match fields with
  | [] => None
  | (k, v) :: rest => if String.eqb k key then Some v else lookup_field key rest
  end.

(** The property names every object inherits from [Object.prototype]. *)
Definition Object_prototype_names : list string :=
  ["constructor"; "__defineGetter__"; "__defineSetter__"; "hasOwnProperty";
   "__lookupGetter__"; "__lookupSetter__"; "isPrototypeOf"; "propertyIsEnumerable";
   "toString"; "valueOf"; "__proto__"; "toLocaleString"].

(** [object[key]] on a mapping: an own property, else an inherited one (a
    function or an object, truthy and not an array), else [undefined]. *)
Definition get_property (fields : list (string * Yaml)) (key : string) : Yaml :=
  match lookup_field key fields with
  | Some v => v
  | None => if includes Object_prototype_names key then YOther true
            else YScalar JsUndefined
  end.

(** [ToBoolean] on a parsed value; arrays and objects are truthy. *)
Definition truthy_yaml (v : Yaml) : bool :=
  match v with
  | YScalar x => ToBoolean x
  | YSeq _ | YMap _ => true
  | YOther t => t
  end.

Section Loader.

Context (rt : Runtime).

(** [config[key]] on the parsed document: the message of the [TypeError]
    thrown, or the value read. *)
Definition read_document (config : Document) (key : string) : string + Yaml :=
  match config with
  | DocUndefined => inl (typeError rt JsUndefined key)
  | DocNull => inl (typeError rt JsNull key)
  | DocMapping fields => inr (get_property fields key)
  | DocOther read => inr (read key)
  end.

(** [board.id]: a [TypeError] on [null] and [undefined], the property of
    a mapping ([id] is not inherited), [undefined] on anything else. *)
Definition board_id_property (board : Yaml) : string + Yaml :=
  match board with
  | YScalar JsUndefined => inl (typeError rt JsUndefined "id")
  | YScalar JsNull => inl (typeError rt JsNull "id")
  | YMap fields => inr (get_property fields "id")
  | _ => inr (YScalar JsUndefined)
  end.

(** [boards.map(board => { if (!board.id) throw ...; return board.id })]:
    the message of the first error thrown, or the ids. *)
Fixpoint map_board_ids (allowedBoardsKey : string) (boards : list Yaml)
  : string + list Yaml :=
  match boards with
  | [] => inr []
  | board :: rest =>
      match board_id_property board with
      | inl message => inl message
      | inr id =>
          if negb (truthy_yaml id)
          then inl ("Board missing 'id' field in '" +:+ allowedBoardsKey
                    +:+ "' configuration")
          else match map_board_ids allowedBoardsKey rest with
               | inl message => inl message
               | inr ids => inr (id :: ids)
               end
      end
  end.

(** The body of the [try] block of [loadAllowedBoardIds]: the message of
    the error thrown, or the ids. *)
Definition load_body (configPath allowedBoardsKey : string) : string + list Yaml :=
  if negb (existsSync rt configPath)
  then inl ("Config file not found: " +:+ configPath)
  else
    match readFileSync rt configPath with
    | inl message => inl message
    | inr fileContents =>
        match yaml_load rt fileContents with
        | inl message => inl message
        | inr config =>
            match read_document config allowedBoardsKey with
            | inl message => inl message
            | inr boards =>
                if negb (truthy_yaml boards)
                then inl ("Key '" +:+ allowedBoardsKey +:+ "' not found in config file")
                else match boards with
                     | YSeq boards => map_board_ids allowedBoardsKey boards
                     | _ => inl ("Value for key '" +:+ allowedBoardsKey
                                 +:+ "' must be an array")
                     end
            end
        end
    end.

Definition loadAllowedBoardIds (configPath allowedBoardsKey : option string)
  : Outcome (option (list Yaml)) :=
  match configPath, allowedBoardsKey with
  | Some path, Some key =>
      if negb (truthy_string path) || negb (truthy_string key) then Returned None
      else match load_body path key with
           | inr ids => Returned (Some ids)
           | inl message =>
               Threw (Error ("Failed to load board configuration: " +:+ message))
           end
  | _, _ => Returned None
  end.

End Loader.

(** The fields of the [configuration] object read by [validateConfig] and
    by the access gate.  The allow-list holds what the parser produced. *)
Record Configuration := mkConfiguration {
  apiKey : string;
  trello_apiKey : string;
  trello_token : string;
  trello_configPath : option string;
  trello_allowedBoardsKey : option string;
  trello_allowedBoardIds : option (list Yaml);
  configuration_debug : bool
}.

Definition validateConfig (config : Configuration) : Outcome unit :=
  let missingEnvVars :=
    (if negb (truthy_string (apiKey config)) then ["API_KEY"] else [])
    ++ (if negb (truthy_string (trello_apiKey config)) then ["TRELLO_API_KEY"] else [])
    ++ (if negb (truthy_string (trello_token config)) then ["TRELLO_TOKEN"] else []) in
  if (0 <? length missingEnvVars)%nat
  then Threw (Error ("Missing required environment variables: "
                     +:+ join ", " missingEnvVars))
  else Returned tt.

(** The top-level statements of the module: the object is built from the
    command line and [process.env] (as [dotenv.config()] has left it), the
    allow-list is loaded, and the result is validated.  Importing the
    module throws when one of the last two does. *)
Definition configuration (rt : Runtime) (argv : list string)
  (env : gmap string string) : Outcome Configuration :=
  let envArgs := envArgs argv in
  let setting name := or_else (envArgs !! name) (env !! name) in
  let configPath := setting "TRELLO_MCP_CONFIG_PATH" in
  let allowedBoardsKey := setting "TRELLO_ALLOWED_BOARDS_KEY" in
  match loadAllowedBoardIds rt configPath allowedBoardsKey with
  | Threw error => Threw error
  | Returned allowedBoardIds =>
      let config :=
        mkConfiguration
          (or_default (setting "API_KEY") "")
          (or_default (setting "TRELLO_API_KEY") "")
          (or_default (setting "TRELLO_TOKEN") "")
          configPath allowedBoardsKey allowedBoardIds
          (String.eqb (toLowerCase (or_default (setting "DEBUG") "false")) "true") in
      match validateConfig config with
      | Threw error => Threw error
      | Returned _ => Returned config
      end
  end.

(** The allow-list as the [string[]] its type declares: defined when every
    id the parser produced is a string. *)
Fixpoint string_ids (ids : list Yaml) : option (list string) :=
  match ids with
  | [] => Some []
  | YScalar (JsString s) :: rest =>
      match string_ids rest with
      | Some ss => Some (s :: ss)
      | None => None
      end
  | _ :: _ => None
  end.

(** The [config] object the gate reads, when the allow-list is well typed. *)
Definition gate_config (c : Configuration) : option Config :=
  match trello_allowedBoardIds c with
  | None =>
      Some (mkConfig (trello_configPath c) (trello_allowedBoardsKey c) None
                     (configuration_debug c))
  | Some ids =>
      match string_ids ids with
      | Some ss =>
          Some (mkConfig (trello_configPath c) (trello_allowedBoardsKey c) (Some ss)
                         (configuration_debug c))
      | None => None
      end
  end.

(** *** A concrete runtime for [config.ts] *)

(** A runtime with one file, [boards.yaml], holding the boards of the key
    [work] and an empty list under the key [none]. *)
Definition sample_runtime : Runtime :=
  mkRuntime
    (fun path => String.eqb path "boards.yaml")
    (fun path => if String.eqb path "boards.yaml" then inr "work: ..."
                 else inl ("ENOENT: no such file or directory, open '" +:+ path +:+ "'"))
    (fun _ =>
       inr (DocMapping
              [("work", YSeq [YMap [("name", YScalar (JsString "Work"));
                                    ("id", YScalar (JsString "B1"))]]);
               ("none", YSeq [])]))
    (fun v key => "Cannot read properties of "
                  +:+ (match v with JsNull => "null" | _ => "undefined" end)
                  +:+ " (reading '" +:+ key +:+ "')").

Definition sample_env : gmap string string :=
  list_to_map [("API_KEY", "k"); ("TRELLO_API_KEY", "a"); ("TRELLO_TOKEN", "t");
               ("TRELLO_MCP_CONFIG_PATH", "boards.yaml");
               ("TRELLO_ALLOWED_BOARDS_KEY", "work"); ("DEBUG", "false")].

(** What loads from [sample_runtime] and [sample_env] when the command
    line sets the key to [none]. *)
Definition sample_configuration : Configuration :=
  mkConfiguration "k" "a" "t" (Some "boards.yaml") (Some "none") (Some []) false.

Definition sample_argv : list string :=
  ["node"; "index.js"; "--env"; "TRELLO_ALLOWED_BOARDS_KEY=none"].

(** ** Vocabulary of the statements *)

(** The first statement of [checkBoardAccess]: the board id goes through
    [fetchBoardNormalId] when [fetchNormalBoardId] is set, and is taken as
    it is otherwise. *)
Definition normalization_step {R} (svc : Services R) (boardId : string)
  (fetchNormalBoardId : bool) : M R string :=
  if fetchNormalBoardId then fetchBoardNormalId svc boardId else ret boardId.

(** What the denial branch writes with [console.error] in debug mode. *)
Definition denial_diagnostics (cfg : Config) (boardId operation : string)
  (ids : list string) : list ConsoleEntry :=
  if debug cfg then
    [ConsoleLine ("[UNAUTHORIZED] Attempted " +:+ operation +:+ " on board "
                  +:+ boardId +:+ " which is not in the allowed list from "
                  +:+ configSource cfg +:+ ".");
     ConsoleLine ("[UNAUTHORIZED] Allowed board IDs: " +:+ join ", " ids)]
  else [].

(** The state after a remote call answered with new remote state [w]. *)
Definition after_call {R} (c : Call) (w : R) (st : State R) : State R :=
  mkState (config st) (boardIdCache st) w (calls st ++ [c]) (console st).

Definition with_cache {R} (cache : gmap string string) (st : State R) : State R :=
  mkState (config st) cache (remote st) (calls st) (console st).

Definition with_console {R} (out : list ConsoleEntry) (st : State R) : State R :=
  mkState (config st) (boardIdCache st) (remote st) (calls st) (console st ++ out).

(** Only lookups were issued between two states. *)
Definition lookups_only (l : list Call) : Prop :=
  Forall (fun c => is_mutation c = false) l.

(** What every gate function leaves untouched: the configuration stays,
    cache entries stay as they are, and the remote calls and console lines
    issued so far are only extended, the former by lookups. *)
Record gate_frame {R} (st st' : State R) : Prop := mkFrame {
  frame_config : config st' = config st;
  frame_cache : boardIdCache st ⊆ boardIdCache st';
  frame_calls : exists l, calls st' = calls st ++ l /\ lookups_only l;
  frame_console : exists out, console st' = console st ++ out
}.

(** No mutating call was issued between two states. *)
Definition no_mutation_since {R} (st st' : State R) : Prop :=
  exists l, calls st' = calls st ++ l /\ lookups_only l.

(** The confirmation error of [delete_card]. *)
Definition confirmation_required : exn :=
  Error "Deletion requires confirmation. Set confirm: true to proceed.".

(** [s] contains the character [c]. *)
Fixpoint has_char (c : Ascii.ascii) (s : string) : bool :=
  match s with
  | EmptyString => false
  | String a rest => Ascii.eqb a c || has_char c rest
  end.

(** What the loop of [config.ts] does with the argument that follows an
    [--env]. *)
Definition assign_env (assignment : string) (envArgs : gmap string string)
  : gmap string string :=
  match split equals_sign assignment with
  | key :: value :: _ =>
      if truthy_string key && truthy_string value
      then set_property key value envArgs
      else envArgs
  | _ => envArgs
  end.

(** A key or a value that an [--env KEY=VALUE] argument can carry whole:
    not empty and free of [=]. *)
Definition plain (s : string) : Prop :=
  truthy_string s = true /\ has_char equals_sign s = false.

(** A key that can be set from the command line: [plain], and not the
    name [__proto__]. *)
Definition plain_key (s : string) : Prop := plain s /\ s <> "__proto__".

(** The command line [--env k1=v1 --env k2=v2 ...]. *)
Fixpoint env_flags (settings : list (string * string)) : list string :=
  match settings with
  | [] => []
  | (key, value) :: rest =>
      "--env" :: (key +:+ "=" +:+ value) :: env_flags rest
  end.

(** [envArgs.NAME || process.env.NAME]. *)
Definition setting (argv : list string) (env : gmap string string) (name : string)
  : option string :=
  or_else (envArgs argv !! name) (env !! name).

(** The text of the cause of a failed remote call: the message of an
    [Error], the [String(...)] rendering of any other thrown value. *)
Definition failure_text (f : RemoteFailure) : string :=
  match f with
  | RemoteError message => message
  | RemoteValue rendering => rendering
  end.

(** The source a denial diagnostic names: the YAML file and key when both
    are configured and not empty, and the word [configuration] otherwise. *)
Definition diagnostic_source (cfg : Config) : string :=
  match configPath cfg, allowedBoardsKey cfg with
  | Some path, Some key =>
      if decide (path <> "" /\ key <> "")
      then "YAML config (" +:+ path +:+ ":" +:+ key +:+ ")"
      else "configuration"
  | _, _ => "configuration"
  end.

(** The value a well-formed command line gives last to [name]. *)
Fixpoint last_setting (name : string) (settings : list (string * string))
  : option string :=
  match settings with
  | [] => None
  | (key, value) :: rest =>
      match last_setting name rest with
      | Some later => Some later
      | None => if decide (key = name) then Some value else None
      end
  end.

(** ** Basic facts *)

Lemma includes_elem_of (ids : list string) (x : string) :
  includes ids x = true <-> x ∈ ids.
Proof.
  induction ids as [|y ys IH]; simpl.
  - split; [discriminate | intros H; inversion H].
  - rewrite elem_of_cons. destruct (String.eqb_spec y x) as [->|Hne].
    + split; auto.
    + rewrite IH. split; [auto | intros [Heq|Hin]; [congruence | done]].
Qed.

Lemma includes_not_elem_of (ids : list string) (x : string) :
  includes ids x = false <-> x ∉ ids.
Proof.
  rewrite <- includes_elem_of. destruct (includes ids x); split; congruence.
Qed.

Lemma length_eqb_0 {A} (l : list A) : (length l =? 0)%nat = true <-> l = [].
Proof. destruct l; simpl; split; congruence. Qed.

Lemma append_assoc (a b c : string) : (a +:+ b) +:+ c = a +:+ b +:+ c.
Proof.
  induction a as [|ch a IH]; [done |].
  change (String ch ((a +:+ b) +:+ c) = String ch (a +:+ b +:+ c)). by f_equal.
Qed.

Lemma append_empty_r (a : string) : a +:+ "" = a.
Proof.
  induction a as [|ch a IH]; [done |].
  change (String ch (a +:+ "") = String ch a). by f_equal.
Qed.

Lemma new_BoardAccessError_carries (boardId operation key : string) :
  carries (new_BoardAccessError boardId operation key) boardId
  /\ carries (new_BoardAccessError boardId operation key) operation
  /\ carries (new_BoardAccessError boardId operation key) key.
Proof.
  unfold carries, new_BoardAccessError, exn_message. repeat split.
  - exists ("Access denied: Operation '" +:+ operation +:+ "' on board '"),
      ("' is not allowed by the configured access control group: "
       +:+ dquote +:+ key +:+ dquote).
    by rewrite !append_assoc.
  - by eexists _, _.
  - exists ("Access denied: Operation '" +:+ operation +:+ "' on board '" +:+ boardId
            +:+ "' is not allowed by the configured access control group: "
            +:+ dquote), dquote.
    by rewrite !append_assoc.
Qed.

Lemma new_BoardAccessError_instanceof (boardId operation key : string) :
  instanceof_BoardAccessError (new_BoardAccessError boardId operation key) = true.
Proof. done. Qed.

Lemma gate_frame_refl {R} (st : State R) : gate_frame st st.
Proof.
  split; [done | done | exists []; split; [by rewrite app_nil_r | constructor]
         | exists []; by rewrite app_nil_r].
Qed.

Lemma gate_frame_trans {R} (st1 st2 st3 : State R) :
  gate_frame st1 st2 -> gate_frame st2 st3 -> gate_frame st1 st3.
Proof.
  intros [Hc1 Hm1 (l1 & Hl1 & Hf1) (o1 & Ho1)] [Hc2 Hm2 (l2 & Hl2 & Hf2) (o2 & Ho2)].
  split.
  - congruence.
  - by etrans.
  - exists (l1 ++ l2). split; [by rewrite Hl2, Hl1, <- app_assoc |].
    by apply Forall_app.
  - exists (o1 ++ o2). by rewrite Ho2, Ho1, <- app_assoc.
Qed.

Lemma gate_frame_lookup {R} (c : Call) (w : R) (st : State R) :
  is_mutation c = false -> gate_frame st (after_call c w st).
Proof.
  intros Hc. split; simpl; [done | done | | exists []; by rewrite app_nil_r].
  exists [c]. split; [done | by constructor].
Qed.

Lemma gate_frame_console {R} (out : list ConsoleEntry) (st : State R) :
  gate_frame st (with_console out st).
Proof.
  split; simpl; [done | done | exists []; split; [by rewrite app_nil_r | constructor]
                | by exists out].
Qed.

Lemma gate_frame_cache {R} (k v : string) (st : State R) :
  boardIdCache st !! k = None ->
  gate_frame st (with_cache (<[k := v]> (boardIdCache st)) st).
Proof.
  intros Hk. split; simpl; [done | by apply insert_subseteq | | exists []; by rewrite app_nil_r].
  exists []. split; [by rewrite app_nil_r | constructor].
Qed.

Section GateFacts.

Context {R : Type} (svc : Services R).

(** *** The three runs of [fetchBoardNormalId] *)

Lemma fetchBoardNormalId_hit (st : State R) (k c : string) :
  boardIdCache st !! k = Some c ->
  fetchBoardNormalId svc k st = (Returned c, st).
Proof.
  intros Hk. unfold fetchBoardNormalId, bind, cache_get. by rewrite Hk.
Qed.

Lemma fetchBoardNormalId_resolved (st : State R) (k : string) (b : Board) (w : R) :
  boardIdCache st !! k = None ->
  getBoard svc k (remote st) = (inr b, w) ->
  fetchBoardNormalId svc k st =
  (Returned (board_id b),
   with_cache (<[k := board_id b]> (boardIdCache st)) (after_call (CallGetBoard k) w st)).
Proof.
  intros Hk Hb.
  unfold fetchBoardNormalId, bind, cache_get, try_catch, await_remote.
  by rewrite Hk, Hb.
Qed.

Lemma fetchBoardNormalId_failed (st : State R) (k : string) (f : RemoteFailure) (w : R) :
  boardIdCache st !! k = None ->
  getBoard svc k (remote st) = (inl f, w) ->
  fetchBoardNormalId svc k st =
  (Threw (new_BoardAccessError k "getBoard" "board_not_found"),
   after_call (CallGetBoard k) w st).
Proof.
  intros Hk Hb.
  unfold fetchBoardNormalId, bind, cache_get, try_catch, await_remote.
  by rewrite Hk, Hb.
Qed.

(** The three runs are all there is. *)
Lemma fetchBoardNormalId_cases (st : State R) (k : string) :
  (exists c, boardIdCache st !! k = Some c
             /\ fetchBoardNormalId svc k st = (Returned c, st))
  \/ (exists b w, boardIdCache st !! k = None
                  /\ getBoard svc k (remote st) = (inr b, w)
                  /\ fetchBoardNormalId svc k st =
                     (Returned (board_id b),
                      with_cache (<[k := board_id b]> (boardIdCache st))
                                 (after_call (CallGetBoard k) w st)))
  \/ (exists f w, boardIdCache st !! k = None
                  /\ getBoard svc k (remote st) = (inl f, w)
                  /\ fetchBoardNormalId svc k st =
                     (Threw (new_BoardAccessError k "getBoard" "board_not_found"),
                      after_call (CallGetBoard k) w st)).
Proof.
  destruct (boardIdCache st !! k) as [c|] eqn:Hk.
  - left. exists c. split; [done | by apply fetchBoardNormalId_hit].
  - right. destruct (getBoard svc k (remote st)) as [[f|b] w] eqn:Hb.
    + right. exists f, w. split_and!; [done | done | by eapply fetchBoardNormalId_failed].
    + left. exists b, w. split_and!; [done | done | by eapply fetchBoardNormalId_resolved].
Qed.

Lemma fetchBoardNormalId_frame (st : State R) (k : string) :
  gate_frame st (snd (fetchBoardNormalId svc k st)).
Proof.
  destruct (fetchBoardNormalId_cases st k)
    as [(c & _ & ->) | [(b & w & Hk & _ & ->) | (f & w & _ & _ & ->)]]; simpl.
  - apply gate_frame_refl.
  - eapply gate_frame_trans; [by apply (gate_frame_lookup (CallGetBoard k) w) |].
    by apply (gate_frame_cache k (board_id b) (after_call (CallGetBoard k) w st)).
  - by apply gate_frame_lookup.
Qed.

Lemma fetchBoardNormalId_throws (st st' : State R) (k : string) (e : exn) :
  fetchBoardNormalId svc k st = (Threw e, st') ->
  e = new_BoardAccessError k "getBoard" "board_not_found".
Proof.
  destruct (fetchBoardNormalId_cases st k)
    as [(c & _ & ->) | [(b & w & _ & _ & ->) | (f & w & _ & _ & ->)]]; congruence.
Qed.

End GateFacts.

Section BoardGateFacts.

Context {R : Type} (svc : Services R).

Lemma normalization_step_frame (st : State R) (b : string) (n : bool) :
  gate_frame st (snd (normalization_step svc b n st)).
Proof.
  destruct n; simpl; [apply fetchBoardNormalId_frame | apply gate_frame_refl].
Qed.

Lemma with_console_nil (st : State R) : with_console [] st = st.
Proof. destruct st. unfold with_console. simpl. by rewrite app_nil_r. Qed.

Lemma checkBoardAccess_unresolved (st st1 : State R) (b op : string) (n : bool) (e : exn) :
  normalization_step svc b n st = (Threw e, st1) ->
  checkBoardAccess svc b op n st = (Threw e, st1).
Proof.
  unfold normalization_step, checkBoardAccess, bind. by intros ->.
Qed.

Lemma checkBoardAccess_open (st st1 : State R) (b op c : string) (n : bool) :
  normalization_step svc b n st = (Returned c, st1) ->
  allowedBoardIds (config st1) = None \/ allowedBoardIds (config st1) = Some [] ->
  checkBoardAccess svc b op n st = (Returned true, st1).
Proof.
  unfold normalization_step, checkBoardAccess, bind, get_config.
  intros -> [Hcfg|Hcfg]; by rewrite Hcfg.
Qed.

Lemma checkBoardAccess_member (st st1 : State R) (b op c : string) (n : bool)
  (ids : list string) :
  normalization_step svc b n st = (Returned c, st1) ->
  allowedBoardIds (config st1) = Some ids ->
  c ∈ ids ->
  checkBoardAccess svc b op n st = (Returned true, st1).
Proof.
  unfold normalization_step, checkBoardAccess, bind, get_config.
  intros -> Hcfg Hin. rewrite Hcfg.
  apply includes_elem_of in Hin. rewrite Hin. by destruct (length ids =? 0)%nat.
Qed.

Lemma checkBoardAccess_denied (st st1 : State R) (b op c : string) (n : bool)
  (ids : list string) :
  normalization_step svc b n st = (Returned c, st1) ->
  allowedBoardIds (config st1) = Some ids ->
  ids <> [] ->
  c ∉ ids ->
  checkBoardAccess svc b op n st =
  (Threw (new_BoardAccessError c op (interpolate (allowedBoardsKey (config st1)))),
   with_console (denial_diagnostics (config st1) c op ids) st1).
Proof.
  unfold normalization_step, checkBoardAccess, bind, get_config.
  intros -> Hcfg Hne Hnin. rewrite Hcfg.
  apply includes_not_elem_of in Hnin. rewrite Hnin.
  destruct (length ids =? 0)%nat eqn:Hlen; [by apply length_eqb_0 in Hlen |].
  unfold denial_diagnostics. destruct (debug (config st1)); simpl.
  - unfold throw, with_console. simpl. by rewrite <- app_assoc.
  - unfold throw. by rewrite with_console_nil.
Qed.

(** The outcomes of [checkBoardAccess], by cases on its first statement
    and on the allow-list. *)
Lemma checkBoardAccess_cases (st : State R) (b op : string) (n : bool) :
  (exists e st1, normalization_step svc b n st = (Threw e, st1)
                 /\ checkBoardAccess svc b op n st = (Threw e, st1))
  \/ (exists c st1, normalization_step svc b n st = (Returned c, st1)
                    /\ checkBoardAccess svc b op n st = (Returned true, st1))
  \/ (exists c st1 ids,
        normalization_step svc b n st = (Returned c, st1)
        /\ allowedBoardIds (config st1) = Some ids /\ ids <> [] /\ (c ∉ ids)
        /\ checkBoardAccess svc b op n st =
           (Threw (new_BoardAccessError c op (interpolate (allowedBoardsKey (config st1)))),
            with_console (denial_diagnostics (config st1) c op ids) st1)).
Proof.
  destruct (normalization_step svc b n st) as [[c|e] st1] eqn:Hn.
  - right. destruct (allowedBoardIds (config st1)) as [ids|] eqn:Hcfg.
    + destruct ids as [|i ids'] eqn:Hids.
      { left. exists c, st1. split; [done |]. eapply checkBoardAccess_open; eauto. }
      rewrite <- Hids in *. assert (ids <> []) as Hne by (subst; done).
      clear Hids. destruct (decide (c ∈ ids)) as [Hin|Hnin].
      * left. exists c, st1. split; [done |]. eapply checkBoardAccess_member; eauto.
      * right. exists c, st1, ids. split_and!; try done.
        by eapply checkBoardAccess_denied.
    + left. exists c, st1. split; [done |]. eapply checkBoardAccess_open; eauto.
  - left. exists e, st1. split; [done |]. by apply checkBoardAccess_unresolved.
Qed.

Lemma checkBoardAccess_frame (st : State R) (b op : string) (n : bool) :
  gate_frame st (snd (checkBoardAccess svc b op n st)).
Proof.
  pose proof (normalization_step_frame st b n) as Hn.
  destruct (checkBoardAccess_cases st b op n)
    as [(e & st1 & Hs & ->) | [(c & st1 & Hs & ->)
       | (c & st1 & ids & Hs & _ & _ & _ & ->)]];
    rewrite Hs in Hn; simpl in *; try done.
  eapply gate_frame_trans; [done | apply gate_frame_console].
Qed.

(** [checkBoardAccess] throws nothing but [BoardAccessError]s. *)
Lemma checkBoardAccess_throws (st st' : State R) (b op : string) (n : bool) (e : exn) :
  checkBoardAccess svc b op n st = (Threw e, st') ->
  instanceof_BoardAccessError e = true.
Proof.
  destruct (checkBoardAccess_cases st b op n)
    as [(e' & st1 & Hs & ->) | [(c & st1 & Hs & ->)
       | (c & st1 & ids & Hs & _ & _ & _ & ->)]]; intros [= <- <-]; [| done].
  destruct n; simpl in Hs; [| discriminate].
  by rewrite (fetchBoardNormalId_throws svc _ _ _ _ Hs).
Qed.

(** *** The entity gates *)

Lemma checkCardAccess_lookup_failed (st : State R) (cardId op : string)
  (f : RemoteFailure) (w : R) :
  getCard svc cardId (remote st) = (inl f, w) ->
  checkCardAccess svc cardId op st =
  (Threw (Error ("Unable to verify access for card " +:+ cardId +:+ ": "
                 +:+ message_or_String (ServiceFailure f))),
   with_console
     [ConsoleLineWith ("Error checking card access for " +:+ cardId +:+ ":")
                      (ServiceFailure f)]
     (after_call (CallGetCard cardId) w st)).
Proof.
  intros Hc. unfold checkCardAccess, try_catch, bind, await_remote. by rewrite Hc.
Qed.

Lemma checkCardAccess_delegates (st : State R) (cardId op : string) (card : Card) (w : R) :
  getCard svc cardId (remote st) = (inr card, w) ->
  checkCardAccess svc cardId op st =
  match checkBoardAccess svc (card_idBoard card)
                         (op +:+ " (card " +:+ cardId +:+ ")") true
                         (after_call (CallGetCard cardId) w st) with
  | (Returned _, st') => (Returned tt, st')
  | (Threw e, st') => (Threw e, st')
  end.
Proof.
  intros Hc. unfold checkCardAccess, try_catch, bind, await_remote. rewrite Hc.
  fold (after_call (CallGetCard cardId) w st).
  destruct (checkBoardAccess svc _ _ true _) as [[v|e] st'] eqn:Hb; [done |].
  apply checkBoardAccess_throws in Hb. by rewrite Hb.
Qed.

Lemma checkListAccess_lookup_failed (st : State R) (listId op : string)
  (f : RemoteFailure) (w : R) :
  getList svc listId (remote st) = (inl f, w) ->
  checkListAccess svc listId op st =
  (Threw (Error ("Unable to verify access for list " +:+ listId +:+ ": "
                 +:+ message_or_String (ServiceFailure f))),
   with_console
     [ConsoleLineWith ("Error checking list access for " +:+ listId +:+ ":")
                      (ServiceFailure f)]
     (after_call (CallGetList listId) w st)).
Proof.
  intros Hc. unfold checkListAccess, try_catch, bind, await_remote. by rewrite Hc.
Qed.

Lemma checkListAccess_delegates (st : State R) (listId op : string) (list : TrelloList)
  (w : R) :
  getList svc listId (remote st) = (inr list, w) ->
  checkListAccess svc listId op st =
  match checkBoardAccess svc (list_idBoard list)
                         (op +:+ " (list " +:+ listId +:+ ")") true
                         (after_call (CallGetList listId) w st) with
  | (Returned _, st') => (Returned tt, st')
  | (Threw e, st') => (Threw e, st')
  end.
Proof.
  intros Hc. unfold checkListAccess, try_catch, bind, await_remote. rewrite Hc.
  fold (after_call (CallGetList listId) w st).
  destruct (checkBoardAccess svc _ _ true _) as [[v|e] st'] eqn:Hb; [done |].
  apply checkBoardAccess_throws in Hb. by rewrite Hb.
Qed.

Lemma checkCardAccess_frame (st : State R) (cardId op : string) :
  gate_frame st (snd (checkCardAccess svc cardId op st)).
Proof.
  destruct (getCard svc cardId (remote st)) as [[f|card] w] eqn:Hc.
  - rewrite (checkCardAccess_lookup_failed _ _ _ _ _ Hc). simpl.
    eapply gate_frame_trans; [by apply (gate_frame_lookup (CallGetCard cardId) w) |].
    apply gate_frame_console.
  - rewrite (checkCardAccess_delegates _ _ _ _ _ Hc).
    pose proof (checkBoardAccess_frame (after_call (CallGetCard cardId) w st)
                  (card_idBoard card) (op +:+ " (card " +:+ cardId +:+ ")") true) as Hf.
    eapply gate_frame_trans; [by apply (gate_frame_lookup (CallGetCard cardId) w) |].
    by destruct (checkBoardAccess svc _ _ true _) as [[v|e] st'].
Qed.

Lemma checkListAccess_frame (st : State R) (listId op : string) :
  gate_frame st (snd (checkListAccess svc listId op st)).
Proof.
  destruct (getList svc listId (remote st)) as [[f|list] w] eqn:Hc.
  - rewrite (checkListAccess_lookup_failed _ _ _ _ _ Hc). simpl.
    eapply gate_frame_trans; [by apply (gate_frame_lookup (CallGetList listId) w) |].
    apply gate_frame_console.
  - rewrite (checkListAccess_delegates _ _ _ _ _ Hc).
    pose proof (checkBoardAccess_frame (after_call (CallGetList listId) w st)
                  (list_idBoard list) (op +:+ " (list " +:+ listId +:+ ")") true) as Hf.
    eapply gate_frame_trans; [by apply (gate_frame_lookup (CallGetList listId) w) |].
    by destruct (checkBoardAccess svc _ _ true _) as [[v|e] st'].
Qed.

End BoardGateFacts.

(** ** The board access gate *)

(** C1. With a non-empty allow-list configured, [checkBoardAccess] permits
    exactly when the canonical board id (the id left by the normalization
    step) is a member of the allow-list.  When it is not a member the call
    throws the [BoardAccessError] built from that board id, the operation
    label and the configured [allowedBoardsKey], and the message of the
    error contains all three. *)
Theorem checkBoardAccess_permits_iff_member {R} (svc : Services R) (st st1 : State R)
  (boardId operation canonical : string) (fetchNormalBoardId : bool)
  (ids : list string) :
  normalization_step svc boardId fetchNormalBoardId st = (Returned canonical, st1) ->
  allowedBoardIds (config st) = Some ids ->
  ids <> [] ->
  (fst (checkBoardAccess svc boardId operation fetchNormalBoardId st) = Returned true
   <-> canonical ∈ ids)
  /\ (canonical ∉ ids ->
      let key := interpolate (allowedBoardsKey (config st)) in
      let denial := new_BoardAccessError canonical operation key in
      fst (checkBoardAccess svc boardId operation fetchNormalBoardId st) = Threw denial
      /\ instanceof_BoardAccessError denial = true
      /\ carries denial canonical
      /\ carries denial operation
      /\ carries denial key).
Proof.
  intros Hn Hcfg Hne.
  pose proof (normalization_step_frame svc st boardId fetchNormalBoardId) as Hf.
  rewrite Hn in Hf. destruct Hf as [Hc _ _ _]. simpl in Hc.
  rewrite <- Hc in *.
  destruct (decide (canonical ∈ ids)) as [Hin|Hnin].
  - rewrite (checkBoardAccess_member svc _ _ _ operation _ _ _ Hn Hcfg Hin). simpl.
    split; [done | intros Hnin; by destruct Hnin].
  - rewrite (checkBoardAccess_denied svc _ _ _ operation _ _ _ Hn Hcfg Hne Hnin). simpl.
    split; [split; [discriminate | done] |].
    intros _. split; [done |]. split; [done |]. apply new_BoardAccessError_carries.
Qed.

(** The allow-list [B1] denies board [b3], whose canonical id is [B3]. *)
Lemma checkBoardAccess_permits_iff_member_witness :
  fst (checkBoardAccess trelloServices "b3" "create_list" true
                        (initial_state sample_config sample_trello))
  = Threw (new_BoardAccessError "B3" "create_list" "work").
Proof.
  refine (proj1
    (proj2 (checkBoardAccess_permits_iff_member trelloServices
              (initial_state sample_config sample_trello)
              (snd (normalization_step trelloServices "b3" true
                      (initial_state sample_config sample_trello)))
              "b3" "create_list" "B3" true ["B1"] _ _ _) _)).
  - vm_compute. reflexivity.
  - reflexivity.
  - discriminate.
  - rewrite <- includes_not_elem_of. reflexivity.
Defined.

(** C2. With no allow-list, or an empty one, [checkBoardAccess] permits:
    without normalization it returns [true] on every board id and leaves
    the state as it is; with normalization it returns [true] as soon as the
    identifier resolves.  The only failure left is the identifier that does
    not resolve; no board id is denied. *)
Theorem checkBoardAccess_open_access {R} (svc : Services R) (st : State R)
  (boardId operation : string) :
  allowedBoardIds (config st) = None \/ allowedBoardIds (config st) = Some [] ->
  checkBoardAccess svc boardId operation false st = (Returned true, st)
  /\ (forall canonical st1,
        fetchBoardNormalId svc boardId st = (Returned canonical, st1) ->
        checkBoardAccess svc boardId operation true st = (Returned true, st1))
  /\ (forall fetchNormalBoardId e,
        fst (checkBoardAccess svc boardId operation fetchNormalBoardId st) = Threw e ->
        fetchNormalBoardId = true
        /\ fst (fetchBoardNormalId svc boardId st) = Threw e
        /\ e = new_BoardAccessError boardId "getBoard" "board_not_found").
Proof.
  intros Hopen.
  assert (forall n c st1, normalization_step svc boardId n st = (Returned c, st1) ->
                          checkBoardAccess svc boardId operation n st = (Returned true, st1))
    as Hpermit.
  { intros n c st1 Hn. eapply checkBoardAccess_open; [done |].
    pose proof (normalization_step_frame svc st boardId n) as Hf.
    rewrite Hn in Hf. destruct Hf as [Hc _ _ _]. simpl in Hc. by rewrite Hc. }
  split_and!.
  - by apply (Hpermit false boardId st).
  - intros c st1 Hn. by apply (Hpermit true c st1).
  - intros n e He.
    destruct (normalization_step svc boardId n st) as [[c|e'] st1] eqn:Hn.
    + rewrite (Hpermit n c st1 Hn) in He. discriminate.
    + rewrite (checkBoardAccess_unresolved svc _ _ _ operation _ _ Hn) in He.
      simpl in He. injection He as ->.
      destruct n; simpl in Hn; [| discriminate].
      split; [done |]. rewrite Hn. split; [done |].
      by eapply fetchBoardNormalId_throws.
Qed.

(** With no allow-list, board [B3] is open. *)
Lemma checkBoardAccess_open_access_witness :
  checkBoardAccess trelloServices "B3" "create_list" false
                   (initial_state open_config sample_trello)
  = (Returned true, initial_state open_config sample_trello).
Proof.
  refine (proj1 (checkBoardAccess_open_access trelloServices
                   (initial_state open_config sample_trello) "B3" "create_list" _)).
  left. reflexivity.
Defined.

(** ** The identifier cache *)

(** C3, as the code has it.  When the board lookup of an identifier that is
    not cached fails, [fetchBoardNormalId] throws a [BoardAccessError], the
    class of access denials, built from the identifier, the operation label
    [getBoard] and the key [board_not_found]; the cache is left as it was. *)
Theorem fetchBoardNormalId_lookup_failure {R} (svc : Services R) (st : State R)
  (input : string) (failure : RemoteFailure) (w : R) :
  boardIdCache st !! input = None ->
  getBoard svc input (remote st) = (inl failure, w) ->
  let unresolved := new_BoardAccessError input "getBoard" "board_not_found" in
  fst (fetchBoardNormalId svc input st) = Threw unresolved
  /\ instanceof_BoardAccessError unresolved = true
  /\ carries unresolved input
  /\ carries unresolved "getBoard"
  /\ boardIdCache (snd (fetchBoardNormalId svc input st)) = boardIdCache st.
Proof.
  intros Hk Hb. rewrite (fetchBoardNormalId_failed svc _ _ _ _ Hk Hb). simpl.
  split_and!; try done; apply new_BoardAccessError_carries.
Qed.

Lemma fetchBoardNormalId_lookup_failure_witness :
  fst (fetchBoardNormalId trelloServices "nope"
                          (initial_state sample_config sample_trello))
  = Threw (new_BoardAccessError "nope" "getBoard" "board_not_found").
Proof.
  refine (proj1 (fetchBoardNormalId_lookup_failure trelloServices
                   (initial_state sample_config sample_trello) "nope"
                   (RemoteError "Request failed with status code 404")
                   sample_trello _ _)).
  - reflexivity.
  - reflexivity.
Defined.

(** C3, as the specification has it, fails: the error thrown for the
    unknown board [nope] is an instance of [BoardAccessError], and it is the
    very error that [checkBoardAccess] throws to deny the operation
    [getBoard] on [nope] under an allow-list read from the key
    [board_not_found]. *)
Lemma fetchBoardNormalId_failure_not_distinct :
  fst (fetchBoardNormalId trelloServices "nope"
                          (initial_state sample_config sample_trello))
  = Threw (new_BoardAccessError "nope" "getBoard" "board_not_found")
  /\ ~ (instanceof_BoardAccessError
          (new_BoardAccessError "nope" "getBoard" "board_not_found") = false)
  /\ fst (checkBoardAccess trelloServices "nope" "getBoard" false
            (initial_state
               (mkConfig (Some "boards.yaml") (Some "board_not_found") (Some ["B1"]) false)
               sample_trello))
     = Threw (new_BoardAccessError "nope" "getBoard" "board_not_found").
Proof.
  split_and!; [reflexivity | discriminate | reflexivity].
Qed.

(** Once resolved, an identifier is answered from the cache: any state whose
    cache still holds the entry returns it and is left untouched, whatever
    the services would answer now. *)
Lemma fetchBoardNormalId_cached_after {R} (svc : Services R) (st st1 : State R)
  (k c : string) :
  fetchBoardNormalId svc k st = (Returned c, st1) ->
  boardIdCache st1 !! k = Some c.
Proof.
  destruct (fetchBoardNormalId_cases svc st k)
    as [(c' & Hk & ->) | [(b & w & _ & _ & ->) | (f & w & _ & _ & ->)]];
    intros [= <- <-]; [done |].
  simpl. apply lookup_insert_eq.
Qed.

(** C6. A second resolution of an identifier returns the canonical id of
    the first successful one and issues no remote call: in every later
    state whose cache extends the one left by the first resolution, and
    whatever the services would answer by then, [fetchBoardNormalId]
    returns the same id and leaves the state, and so the sequence of remote
    calls, as it is.  No run of [fetchBoardNormalId] or of a gate function
    changes or removes a cache entry, and an entry that a resolution adds
    is the answer of a successful [getBoard] for the identifier being
    resolved, which that resolution returns. *)
Theorem fetchBoardNormalId_idempotent {R} (svc svc' : Services R) (st st1 : State R)
  (input canonical : string) :
  fetchBoardNormalId svc input st = (Returned canonical, st1) ->
  (forall st2 : State R,
      boardIdCache st1 ⊆ boardIdCache st2 ->
      fetchBoardNormalId svc' input st2 = (Returned canonical, st2))
  /\ (forall (s : State R) k,
        boardIdCache s ⊆ boardIdCache (snd (fetchBoardNormalId svc k s)))
  /\ (forall (s : State R) b op n,
        boardIdCache s ⊆ boardIdCache (snd (checkBoardAccess svc b op n s)))
  /\ (forall (s : State R) id op,
        boardIdCache s ⊆ boardIdCache (snd (checkCardAccess svc id op s)))
  /\ (forall (s : State R) id op,
        boardIdCache s ⊆ boardIdCache (snd (checkListAccess svc id op s)))
  /\ (forall (s : State R) k k' v,
        boardIdCache (snd (fetchBoardNormalId svc k s)) !! k' = Some v ->
        boardIdCache s !! k' = Some v
        \/ (k' = k
            /\ fst (fetchBoardNormalId svc k s) = Returned v
            /\ boardIdCache s !! k = None
            /\ exists b w, getBoard svc k (remote s) = (inr b, w) /\ board_id b = v)).
Proof.
  intros Hrun. split_and!.
  - intros st2 Hsub. apply fetchBoardNormalId_hit.
    eapply lookup_weaken; [| done]. by eapply fetchBoardNormalId_cached_after.
  - intros s k. apply fetchBoardNormalId_frame.
  - intros s b op n. apply checkBoardAccess_frame.
  - intros s id op. apply checkCardAccess_frame.
  - intros s id op. apply checkListAccess_frame.
  - intros s k k' v.
    destruct (fetchBoardNormalId_cases svc s k)
      as [(c' & Hk & ->) | [(b & w & Hk & Hb & ->) | (f & w & _ & _ & ->)]];
      simpl; intros Hkv; [by left | | by left].
    destruct (decide (k = k')) as [<-|Hne].
    + rewrite lookup_insert_eq in Hkv. simplify_eq.
      right. split_and!; try done. by exists b, w.
    + rewrite lookup_insert_ne in Hkv by done. by left.
Qed.

(** The short id [b1] resolves to [B1] once; asked again after the board
    has gone from the remote system, it still resolves to [B1], with no
    further call. *)
Lemma fetchBoardNormalId_idempotent_witness :
  let st1 := snd (fetchBoardNormalId trelloServices "b1"
                    (initial_state sample_config sample_trello)) in
  let st2 := mkState (config st1) (boardIdCache st1) (mkTrello [] [] []) (calls st1)
                     (console st1) in
  fetchBoardNormalId trelloServices "b1" st2 = (Returned "B1", st2).
Proof.
  refine (proj1 (fetchBoardNormalId_idempotent trelloServices trelloServices
                   (initial_state sample_config sample_trello)
                   (snd (fetchBoardNormalId trelloServices "b1"
                           (initial_state sample_config sample_trello)))
                   "b1" "B1" _) _ _).
  - vm_compute. reflexivity.
  - reflexivity.
Defined.

(** ** The entity gates *)

Lemma message_or_String_failure (f : RemoteFailure) :
  message_or_String (ServiceFailure f) = failure_text f.
Proof. by destruct f. Qed.

(** C4. When [getCard] (resp. [getList]) fails, [checkCardAccess] (resp.
    [checkListAccess]) throws a plain [Error], not a [BoardAccessError],
    whose message contains the entity id and the text of the cause (the
    message of the error the service threw, or the rendering of the value
    it threw); and an error thrown by the delegated [checkBoardAccess]
    leaves the entity gate as the same error, in the same state. *)
Theorem entity_gate_failures {R} (svc : Services R) (st : State R)
  (entityId operation : string) :
  (forall f w,
      getCard svc entityId (remote st) = (inl f, w) ->
      exists lookupFailed,
        fst (checkCardAccess svc entityId operation st) = Threw lookupFailed
        /\ lookupFailed =
           Error ("Unable to verify access for card " +:+ entityId +:+ ": "
                  +:+ failure_text f)
        /\ instanceof_BoardAccessError lookupFailed = false
        /\ carries lookupFailed entityId
        /\ carries lookupFailed (failure_text f))
  /\ (forall card w denial st',
        getCard svc entityId (remote st) = (inr card, w) ->
        checkBoardAccess svc (card_idBoard card)
                         (operation +:+ " (card " +:+ entityId +:+ ")") true
                         (after_call (CallGetCard entityId) w st) = (Threw denial, st') ->
        checkCardAccess svc entityId operation st = (Threw denial, st'))
  /\ (forall f w,
        getList svc entityId (remote st) = (inl f, w) ->
        exists lookupFailed,
          fst (checkListAccess svc entityId operation st) = Threw lookupFailed
          /\ lookupFailed =
             Error ("Unable to verify access for list " +:+ entityId +:+ ": "
                    +:+ failure_text f)
          /\ instanceof_BoardAccessError lookupFailed = false
          /\ carries lookupFailed entityId
          /\ carries lookupFailed (failure_text f))
  /\ (forall list w denial st',
        getList svc entityId (remote st) = (inr list, w) ->
        checkBoardAccess svc (list_idBoard list)
                         (operation +:+ " (list " +:+ entityId +:+ ")") true
                         (after_call (CallGetList entityId) w st) = (Threw denial, st') ->
        checkListAccess svc entityId operation st = (Threw denial, st')).
Proof.
  split_and!.
  - intros f w Hc. eexists. rewrite (checkCardAccess_lookup_failed svc _ _ operation _ _ Hc).
    rewrite message_or_String_failure.
    split_and!; [done | done | done | |].
    + exists "Unable to verify access for card ", (": " +:+ failure_text f). done.
    + exists ("Unable to verify access for card " +:+ entityId +:+ ": "), "".
      simpl. f_equal. rewrite !append_assoc. f_equal. f_equal.
      by rewrite append_empty_r.
  - intros card w e st' Hc Hb.
    by rewrite (checkCardAccess_delegates svc _ _ operation _ _ Hc), Hb.
  - intros f w Hc. eexists. rewrite (checkListAccess_lookup_failed svc _ _ operation _ _ Hc).
    rewrite message_or_String_failure.
    split_and!; [done | done | done | |].
    + exists "Unable to verify access for list ", (": " +:+ failure_text f). done.
    + exists ("Unable to verify access for list " +:+ entityId +:+ ": "), "".
      simpl. f_equal. rewrite !append_assoc. f_equal. f_equal.
      by rewrite append_empty_r.
  - intros list w e st' Hc Hb.
    by rewrite (checkListAccess_delegates svc _ _ operation _ _ Hc), Hb.
Qed.

(** The unknown card [C9] is a lookup failure, not a denial. *)
Lemma entity_gate_failures_witness :
  fst (checkCardAccess trelloServices "C9" "get_card"
                       (initial_state sample_config sample_trello))
  = Threw (Error "Unable to verify access for card C9: Request failed with status code 404").
Proof.
  destruct (proj1 (entity_gate_failures trelloServices
                     (initial_state sample_config sample_trello) "C9" "get_card")
                  (RemoteError "Request failed with status code 404") sample_trello
                  eq_refl) as (e & He & -> & _).
  exact He.
Defined.

(** C7. Once the card (resp. list) is fetched, the entity gate is the run
    of [checkBoardAccess] on the entity's [idBoard], under the label
    [<operation> (card <id>)] (resp. [(list <id>)]) and with normalization
    on, started in the state left by the fetch: same state, same error, and
    a return when it returns.  So the [idBoard] goes through
    [fetchBoardNormalId]: when that fails the gate fails with its error,
    and when it resolves to a canonical id under a non-empty allow-list, the
    gate passes exactly when the canonical id is a member. *)
Theorem entity_gate_delegates {R} (svc : Services R) (st : State R)
  (entityId operation : string) :
  (forall card w,
      getCard svc entityId (remote st) = (inr card, w) ->
      let st1 := after_call (CallGetCard entityId) w st in
      checkCardAccess svc entityId operation st =
      match checkBoardAccess svc (card_idBoard card)
                             (operation +:+ " (card " +:+ entityId +:+ ")") true st1 with
      | (Returned _, st') => (Returned tt, st')
      | (Threw e, st') => (Threw e, st')
      end
      /\ (forall e st2,
            fetchBoardNormalId svc (card_idBoard card) st1 = (Threw e, st2) ->
            checkCardAccess svc entityId operation st = (Threw e, st2))
      /\ (forall canonical st2 ids,
            fetchBoardNormalId svc (card_idBoard card) st1 = (Returned canonical, st2) ->
            allowedBoardIds (config st) = Some ids -> ids <> [] ->
            (fst (checkCardAccess svc entityId operation st) = Returned tt
             <-> canonical ∈ ids)))
  /\ (forall list w,
        getList svc entityId (remote st) = (inr list, w) ->
        let st1 := after_call (CallGetList entityId) w st in
        checkListAccess svc entityId operation st =
        match checkBoardAccess svc (list_idBoard list)
                               (operation +:+ " (list " +:+ entityId +:+ ")") true st1 with
        | (Returned _, st') => (Returned tt, st')
        | (Threw e, st') => (Threw e, st')
        end
        /\ (forall e st2,
              fetchBoardNormalId svc (list_idBoard list) st1 = (Threw e, st2) ->
              checkListAccess svc entityId operation st = (Threw e, st2))
        /\ (forall canonical st2 ids,
              fetchBoardNormalId svc (list_idBoard list) st1 = (Returned canonical, st2) ->
              allowedBoardIds (config st) = Some ids -> ids <> [] ->
              (fst (checkListAccess svc entityId operation st) = Returned tt
               <-> canonical ∈ ids))).
Proof.
  assert (forall (st1 : State R) b op c st2 ids,
             fetchBoardNormalId svc b st1 = (Returned c, st2) ->
             allowedBoardIds (config st1) = Some ids -> ids <> [] ->
             (fst (match checkBoardAccess svc b op true st1 with
                   | (Returned _, st') => (Returned tt, st')
                   | (Threw e, st') => (Threw e, st')
                   end) = Returned tt <-> c ∈ ids)) as Hdecision.
  { intros st1 b op c st2 ids Hn Hcfg Hne.
    pose proof (fetchBoardNormalId_frame svc st1 b) as Hf.
    rewrite Hn in Hf. destruct Hf as [Hc _ _ _]. simpl in Hc. rewrite <- Hc in Hcfg.
    destruct (decide (c ∈ ids)) as [Hin|Hnin].
    - by rewrite (checkBoardAccess_member svc st1 st2 b op c true ids Hn Hcfg Hin).
    - rewrite (checkBoardAccess_denied svc st1 st2 b op c true ids Hn Hcfg Hne Hnin).
      simpl. split; [discriminate | done]. }
  split.
  - intros card w Hc st1.
    rewrite (checkCardAccess_delegates svc _ _ operation _ _ Hc). fold st1.
    split_and!; [done | |].
    + intros e st2 Hn.
      by rewrite (checkBoardAccess_unresolved svc st1 st2 _ _ true e Hn).
    + intros c st2 ids Hn Hcfg Hne. by eapply Hdecision.
  - intros list w Hc st1.
    rewrite (checkListAccess_delegates svc _ _ operation _ _ Hc). fold st1.
    split_and!; [done | |].
    + intros e st2 Hn.
      by rewrite (checkBoardAccess_unresolved svc st1 st2 _ _ true e Hn).
    + intros c st2 ids Hn Hcfg Hne. by eapply Hdecision.
Qed.

(** List [L2] sits on board [B3], which the allow-list [B1] leaves out. *)
Lemma entity_gate_delegates_witness :
  checkListAccess trelloServices "L2" "get_list"
                  (initial_state sample_config sample_trello)
  = match checkBoardAccess trelloServices "B3" "get_list (list L2)" true
            (after_call (CallGetList "L2") sample_trello
                        (initial_state sample_config sample_trello)) with
    | (Returned _, st') => (Returned tt, st')
    | (Threw e, st') => (Threw e, st')
    end.
Proof.
  exact (proj1 (proj2 (entity_gate_delegates trelloServices
                         (initial_state sample_config sample_trello) "L2" "get_list")
                      (mkList "L2" "B3") sample_trello eq_refl)).
Defined.

(** C9. [checkBoardAccess] never changes the configuration, so neither the
    allow-list nor its provenance; it changes no cache entry other than the
    one of the board id it normalizes, which it may only add; and with
    normalization off it leaves the cache, the remote system and the
    sequence of remote calls as they are.  What it writes besides is the
    diagnostic of a denial, on the console. *)
Theorem checkBoardAccess_frame_effect {R} (svc : Services R) (st : State R)
  (boardId operation : string) (fetchNormalBoardId : bool) :
  let st' := snd (checkBoardAccess svc boardId operation fetchNormalBoardId st) in
  config st' = config st
  /\ allowedBoardIds (config st') = allowedBoardIds (config st)
  /\ allowedBoardsKey (config st') = allowedBoardsKey (config st)
  /\ configPath (config st') = configPath (config st)
  /\ boardIdCache st ⊆ boardIdCache st'
  /\ (forall k, k <> boardId -> boardIdCache st' !! k = boardIdCache st !! k)
  /\ (exists out, console st' = console st ++ out)
  /\ (fetchNormalBoardId = false ->
      boardIdCache st' = boardIdCache st
      /\ remote st' = remote st
      /\ calls st' = calls st).
Proof.
  intros st'.
  pose proof (checkBoardAccess_frame svc st boardId operation fetchNormalBoardId)
    as [Hcfg Hsub _ Hout]. fold st' in Hcfg, Hsub, Hout.
  assert (exists st1 out, st' = with_console out st1
                          /\ st1 = snd (normalization_step svc boardId fetchNormalBoardId st))
    as (st1 & out & Hst' & Hst1).
  { unfold st'.
    destruct (checkBoardAccess_cases svc st boardId operation fetchNormalBoardId)
      as [(e & s1 & Hs & ->) | [(c & s1 & Hs & ->)
         | (c & s1 & ids & Hs & _ & _ & _ & ->)]]; rewrite Hs; simpl.
    - exists s1, []. by rewrite with_console_nil.
    - exists s1, []. by rewrite with_console_nil.
    - by eexists s1, _. }
  split_and!; try done; try by rewrite Hcfg.
  - intros k Hk. rewrite Hst', Hst1. simpl.
    destruct fetchNormalBoardId; simpl; [| done].
    destruct (fetchBoardNormalId_cases svc st boardId)
      as [(c & _ & ->) | [(b & w & _ & _ & ->) | (f & w & _ & _ & ->)]]; simpl;
      [done | | done].
    by apply lookup_insert_ne.
  - intros ->. simpl in Hst1. by rewrite Hst', Hst1.
Qed.

(** On a denial with [debug] on and normalization off, two console lines
    are written and nothing else moves. *)
Lemma checkBoardAccess_frame_effect_witness :
  let st := initial_state (mkConfig (Some "boards.yaml") (Some "work") (Some ["B1"]) true)
                          sample_trello in
  let st' := snd (checkBoardAccess trelloServices "B3" "create_list" false st) in
  boardIdCache st' = boardIdCache st /\ remote st' = remote st /\ calls st' = calls st.
Proof.
  intros st st'.
  destruct (checkBoardAccess_frame_effect trelloServices st "B3" "create_list" false)
    as (_ & _ & _ & _ & _ & _ & _ & H).
  exact (H eq_refl).
Defined.

(** ** The handlers *)

Lemma gate_frame_no_mutation {R} (st st' : State R) :
  gate_frame st st' -> no_mutation_since st st'.
Proof. by intros [_ _ H _]. Qed.

Lemma await_remote_calls {R A} (c : Call) (f : Remote R A) (st : State R) :
  calls (snd (await_remote c f st)) = calls st ++ [c].
Proof. unfold await_remote. by destruct (f (remote st)) as [[x|a] w]. Qed.

(** What the entity gates throw: a [BoardAccessError] of the board check,
    or the wrapping [Error] of a failed lookup. *)
Lemma checkCardAccess_throws {R} (svc : Services R) (st : State R)
  (cardId op : string) (e : exn) :
  fst (checkCardAccess svc cardId op st) = Threw e ->
  instanceof_BoardAccessError e = true
  \/ exists cause, e = Error ("Unable to verify access for card " +:+ cardId +:+ ": "
                              +:+ cause).
Proof.
  destruct (getCard svc cardId (remote st)) as [[f|card] w] eqn:Hc.
  - rewrite (checkCardAccess_lookup_failed svc _ _ op _ _ Hc). simpl.
    intros [= <-]. right. by eexists.
  - rewrite (checkCardAccess_delegates svc _ _ op _ _ Hc).
    destruct (checkBoardAccess svc _ _ true _) as [[v|e'] st'] eqn:Hb; simpl;
      intros [= <-]. left. by eapply checkBoardAccess_throws.
Qed.

Lemma checkListAccess_throws {R} (svc : Services R) (st : State R)
  (listId op : string) (e : exn) :
  fst (checkListAccess svc listId op st) = Threw e ->
  instanceof_BoardAccessError e = true
  \/ exists cause, e = Error ("Unable to verify access for list " +:+ listId +:+ ": "
                              +:+ cause).
Proof.
  destruct (getList svc listId (remote st)) as [[f|list] w] eqn:Hc.
  - rewrite (checkListAccess_lookup_failed svc _ _ op _ _ Hc). simpl.
    intros [= <-]. right. by eexists.
  - rewrite (checkListAccess_delegates svc _ _ op _ _ Hc).
    destruct (checkBoardAccess svc _ _ true _) as [[v|e'] st'] eqn:Hb; simpl;
      intros [= <-]. left. by eapply checkBoardAccess_throws.
Qed.

(** Chains the frames of the gates run so far into [no_mutation_since]. *)
Ltac frame_chain :=
  apply gate_frame_no_mutation;
  repeat match goal with
         | H : checkCardAccess ?svc ?id ?op ?s = (_, ?s') |- gate_frame _ ?s' =>
             eapply gate_frame_trans;
             [| pose proof (checkCardAccess_frame svc s id op) as Hfr;
                rewrite H in Hfr; exact Hfr]
         | H : checkListAccess ?svc ?id ?op ?s = (_, ?s') |- gate_frame _ ?s' =>
             eapply gate_frame_trans;
             [| pose proof (checkListAccess_frame svc s id op) as Hfr;
                rewrite H in Hfr; exact Hfr]
         | H : checkBoardAccess ?svc ?b ?op ?n ?s = (_, ?s') |- gate_frame _ ?s' =>
             eapply gate_frame_trans;
             [| pose proof (checkBoardAccess_frame svc s b op n) as Hfr;
                rewrite H in Hfr; exact Hfr]
         end;
  apply gate_frame_refl.

(** C5. [move_card_to_list] checks the card, then the target list, and
    [move_list_to_board] checks the list, then the target board.  When the
    first check throws, the handler stops there with that error, in the
    state the first check left, so the second check has not run; when the
    second throws, the handler stops with its error.  In both cases only
    lookups have been issued.  Only when both checks return is the move
    issued, as the next remote call. *)
Theorem moves_gate_both_ends {R} (svc : Services R) (st : State R) :
  (forall args : MoveCardToListArgs,
      let handler := cardToolHandlers.move_card_to_list svc args in
      match checkCardAccess svc (mc_cardId args) "move_card_to_list" st with
      | (Threw e, st1) => handler st = (Threw e, st1) /\ no_mutation_since st st1
      | (Returned _, st1) =>
          match checkListAccess svc (mc_listId args) "move_card_to_list (target)" st1 with
          | (Threw e, st2) => handler st = (Threw e, st2) /\ no_mutation_since st st2
          | (Returned _, st2) =>
              no_mutation_since st st2
              /\ calls (snd (handler st))
                 = calls st2 ++ [CallMoveCardToList (mc_cardId args) (mc_listId args)]
          end
      end)
  /\ (forall args : MoveListToBoardArgs,
        let handler := listToolHandlers.move_list_to_board svc args in
        match checkListAccess svc (ml_listId args) "move_list_to_board" st with
        | (Threw e, st1) => handler st = (Threw e, st1) /\ no_mutation_since st st1
        | (Returned _, st1) =>
            match checkBoardAccess svc (ml_boardId args)
                                   "move_list_to_board (target board)" true st1 with
            | (Threw e, st2) => handler st = (Threw e, st2) /\ no_mutation_since st st2
            | (Returned _, st2) =>
                no_mutation_since st st2
                /\ calls (snd (handler st))
                   = calls st2 ++ [CallMoveListToBoard (ml_listId args) (ml_boardId args)]
            end
        end).
Proof.
  split; intros args handler; unfold handler.
  - unfold cardToolHandlers.move_card_to_list, bind.
    destruct (checkCardAccess svc _ _ st) as [[[]|e] st1] eqn:H1.
    + destruct (checkListAccess svc _ _ st1) as [[[]|e] st2] eqn:H2.
      * split; [frame_chain |].
        rewrite <- (await_remote_calls
                      (CallMoveCardToList (mc_cardId args) (mc_listId args))
                      (moveCardToList svc (mc_cardId args) (mc_listId args)) st2).
        by destruct (await_remote _ _ st2) as [[c|e] st3].
      * split; [done | frame_chain].
    + split; [done | frame_chain].
  - unfold listToolHandlers.move_list_to_board, bind.
    destruct (checkListAccess svc _ _ st) as [[[]|e] st1] eqn:H1.
    + destruct (checkBoardAccess svc _ _ true st1) as [[v|e] st2] eqn:H2.
      * split; [frame_chain |].
        rewrite <- (await_remote_calls
                      (CallMoveListToBoard (ml_listId args) (ml_boardId args))
                      (moveListToBoard svc (ml_listId args) (ml_boardId args)) st2).
        by destruct (await_remote _ _ st2) as [[c|e] st3].
      * split; [done | frame_chain].
    + split; [done | frame_chain].
Qed.

(** Card [C1] of the allowed board [B1] is not moved to list [L2] of board
    [B3]: the handler throws the denial for [B3], after lookups only. *)
Example move_card_across_boards_denied :
  let st := initial_state sample_config sample_trello in
  let run := cardToolHandlers.move_card_to_list trelloServices
               (mkMoveCardToListArgs "C1" "L2") st in
  fst run = Threw (new_BoardAccessError "B3" "move_card_to_list (target) (list L2)" "work")
  /\ calls (snd run)
     = [CallGetCard "C1"; CallGetBoard "B1"; CallGetList "L2"; CallGetBoard "B3"]
  /\ remote (snd run) = sample_trello.
Proof. vm_compute. done. Qed.

Lemma confirmation_required_not_lookup_failed (kind entityId cause : string) :
  confirmation_required
  <> Error ("Unable to verify access for " +:+ kind +:+ entityId +:+ ": " +:+ cause).
Proof. unfold confirmation_required. intros [= H]. Qed.

(** C8. When [args.confirm] is falsy (absent, [false], or any other falsy
    value), [delete_card] throws the confirmation error and leaves the
    state as it is: no remote call is issued, so neither the [getCard] of
    [checkCardAccess] nor [deleteCard] runs.  The error is a plain [Error],
    not a [BoardAccessError], and no run of [fetchBoardNormalId],
    [checkBoardAccess], [checkCardAccess] or [checkListAccess] throws it. *)
Theorem delete_card_requires_confirmation {R} (svc : Services R) (st : State R)
  (args : DeleteCardArgs) :
  ToBoolean (dc_confirm args) = false ->
  cardToolHandlers.delete_card svc args st = (Threw confirmation_required, st)
  /\ calls (snd (cardToolHandlers.delete_card svc args st)) = calls st
  /\ instanceof_BoardAccessError confirmation_required = false
  /\ (forall s k,
        fst (fetchBoardNormalId svc k s) <> Threw confirmation_required)
  /\ (forall s b op n,
        fst (checkBoardAccess svc b op n s) <> Threw confirmation_required)
  /\ (forall s id op,
        fst (checkCardAccess svc id op s) <> Threw confirmation_required)
  /\ (forall s id op,
        fst (checkListAccess svc id op s) <> Threw confirmation_required).
Proof.
  intros Hconfirm.
  assert (cardToolHandlers.delete_card svc args st = (Threw confirmation_required, st))
    as Hrun.
  { unfold cardToolHandlers.delete_card. by rewrite Hconfirm. }
  rewrite Hrun. split_and!; try done.
  - intros s k He.
    destruct (fetchBoardNormalId svc k s) as [r s'] eqn:Hf. simpl in He. subst r.
    by apply fetchBoardNormalId_throws in Hf.
  - intros s b op n He.
    destruct (checkBoardAccess svc b op n s) as [r s'] eqn:Hb. simpl in He. subst r.
    by apply checkBoardAccess_throws in Hb.
  - intros s id op He. apply checkCardAccess_throws in He as [He|[cause He]]; [done |].
    by apply (confirmation_required_not_lookup_failed "card " id cause).
  - intros s id op He. apply checkListAccess_throws in He as [He|[cause He]]; [done |].
    by apply (confirmation_required_not_lookup_failed "list " id cause).
Qed.

(** Without [confirm], card [C1] is not deleted and nothing is looked up. *)
Lemma delete_card_requires_confirmation_witness :
  cardToolHandlers.delete_card trelloServices (mkDeleteCardArgs "C1" JsUndefined)
                               (initial_state sample_config sample_trello)
  = (Threw confirmation_required, initial_state sample_config sample_trello).
Proof.
  exact (proj1 (delete_card_requires_confirmation trelloServices
                  (initial_state sample_config sample_trello)
                  (mkDeleteCardArgs "C1" JsUndefined) eq_refl)).
Defined.

(** C10. [move_all_cards] checks the source list, then the destination
    list, each check stopping the handler when it throws.  After both have
    returned: when [args.boardId] is absent (or falsy) the next remote call
    is [moveAllCards], with no check of a target board; when it is given,
    [checkBoardAccess] runs on it first, stopping the handler when it
    throws. *)
Theorem move_all_cards_gates {R} (svc : Services R) (st : State R)
  (args : MoveAllCardsArgs) :
  let handler := listToolHandlers.move_all_cards svc args in
  let move := CallMoveAllCards (ma_sourceListId args) (ma_destinationListId args)
                               (ma_boardId args) in
  match checkListAccess svc (ma_sourceListId args) "move_all_cards (source)" st with
  | (Threw e, st1) => handler st = (Threw e, st1) /\ no_mutation_since st st1
  | (Returned _, st1) =>
      match checkListAccess svc (ma_destinationListId args)
                            "move_all_cards (destination)" st1 with
      | (Threw e, st2) => handler st = (Threw e, st2) /\ no_mutation_since st st2
      | (Returned _, st2) =>
          no_mutation_since st st2
          /\ (truthy_opt (ma_boardId args) = false ->
              calls (snd (handler st)) = calls st2 ++ [move]
              /\ handler st =
                 match await_remote move
                         (moveAllCards svc (ma_sourceListId args)
                                       (ma_destinationListId args) (ma_boardId args))
                         st2 with
                 | (Returned _, st3) =>
                     (Returned
                        (ResultSuccess "All cards have been moved to the destination list"),
                      st3)
                 | (Threw e, st3) => (Threw e, st3)
                 end)
          /\ (forall boardId,
                ma_boardId args = Some boardId -> truthy_string boardId = true ->
                match checkBoardAccess svc boardId "move_all_cards (target board)"
                                       true st2 with
                | (Threw e, st3) =>
                    handler st = (Threw e, st3) /\ no_mutation_since st st3
                | (Returned _, st3) =>
                    no_mutation_since st st3
                    /\ calls (snd (handler st)) = calls st3 ++ [move]
                end)
      end
  end.
Proof.
  intros handler move. unfold handler, listToolHandlers.move_all_cards, bind.
  destruct (checkListAccess svc _ _ st) as [[[]|e] st1] eqn:H1;
    [| split; [done | frame_chain]].
  destruct (checkListAccess svc _ _ st1) as [[[]|e] st2] eqn:H2;
    [| split; [done | frame_chain]].
  split_and!.
  - frame_chain.
  - intros Hfalsy. subst move.
    destruct (ma_boardId args) as [b|] eqn:Hb; simpl in Hfalsy;
      [rewrite Hfalsy |]; unfold ret;
      (split; [| done]);
      match goal with
      | |- context [await_remote ?c ?f st2] =>
          rewrite <- (await_remote_calls c f st2);
          by destruct (await_remote c f st2) as [[[]|e] st3]
      end.
  - intros b Hb Htruthy. fold move. rewrite Hb, Htruthy. unfold bind.
    destruct (checkBoardAccess svc b _ true st2) as [[v|e] st3] eqn:H3.
    + split; [frame_chain |].
      unfold ret. subst move. rewrite Hb.
      rewrite <- (await_remote_calls
                    (CallMoveAllCards (ma_sourceListId args) (ma_destinationListId args)
                                      (Some b))
                    (moveAllCards svc (ma_sourceListId args)
                                  (ma_destinationListId args) (Some b)) st3).
      by destruct (await_remote _ _ st3) as [[[]|e] st4].
    + split; [done | frame_chain].
Qed.

(** With no [boardId], the cards of [L1] are moved to [L2], a list of the
    board [B3], under an allow-list that holds both boards of the lists:
    the two list checks run, then the move. *)
Lemma move_all_cards_gates_witness :
  calls (snd (listToolHandlers.move_all_cards trelloServices
                (mkMoveAllCardsArgs "L1" "L2" None)
                (initial_state
                   (mkConfig (Some "boards.yaml") (Some "work") (Some ["B1"; "B3"]) false)
                   sample_trello)))
  = [CallGetList "L1"; CallGetBoard "B1"; CallGetList "L2"; CallGetBoard "B3";
     CallMoveAllCards "L1" "L2" None].
Proof.
  generalize (move_all_cards_gates trelloServices
                (initial_state
                   (mkConfig (Some "boards.yaml") (Some "work") (Some ["B1"; "B3"]) false)
                   sample_trello)
                (mkMoveAllCardsArgs "L1" "L2" None)).
  vm_compute. intros (_ & H & _). exact (proj1 (H eq_refl)).
Defined.

(** ** Further properties of the gate *)

Lemma normalization_step_console {R} (svc : Services R) (st : State R)
  (b : string) (n : bool) :
  console (snd (normalization_step svc b n st)) = console st.
Proof.
  destruct n; simpl; [| done].
  by destruct (fetchBoardNormalId_cases svc st b)
    as [(c & _ & ->) | [(x & w & _ & _ & ->) | (f & w & _ & _ & ->)]].
Qed.

Lemma normalization_step_config {R} (svc : Services R) (st : State R)
  (b : string) (n : bool) :
  config (snd (normalization_step svc b n st)) = config st.
Proof. by destruct (normalization_step_frame svc st b n). Qed.

Lemma configSource_diagnostic_source (cfg : Config) :
  configSource cfg = diagnostic_source cfg.
Proof.
  unfold configSource, diagnostic_source.
  destruct (configPath cfg) as [[|a p]|], (allowedBoardsKey cfg) as [[|b k]|];
    simpl; try done; case_decide as H; try done; by destruct H.
Qed.

(** X1. What [checkBoardAccess] writes to the console is fixed by the
    outcome of its normalization step, the allow-list and [debug]: when the
    identifier resolved to an id that a non-empty allow-list does not hold
    and [debug] is on, exactly the two [UNAUTHORIZED] lines are appended,
    the first naming the operation, the canonical id and the source of the
    allow-list, the second listing the allow-list; in every other case
    (the identifier does not resolve, the board is permitted, [debug] is
    off) nothing is written. *)
Theorem checkBoardAccess_console {R} (svc : Services R) (st : State R)
  (boardId operation : string) (fetchNormalBoardId : bool) :
  console (snd (checkBoardAccess svc boardId operation fetchNormalBoardId st))
  = console st
    ++ match fst (normalization_step svc boardId fetchNormalBoardId st) with
       | Threw _ => []
       | Returned canonical =>
           match allowedBoardIds (config st) with
           | None => []
           | Some ids =>
               if bool_decide (ids <> [] /\ (canonical ∉ ids)) && debug (config st)
               then [ConsoleLine ("[UNAUTHORIZED] Attempted " +:+ operation
                                  +:+ " on board " +:+ canonical
                                  +:+ " which is not in the allowed list from "
                                  +:+ diagnostic_source (config st) +:+ ".");
                     ConsoleLine ("[UNAUTHORIZED] Allowed board IDs: "
                                  +:+ join ", " ids)]
               else []
           end
       end.
Proof.
  pose proof (normalization_step_console svc st boardId fetchNormalBoardId) as Hcon.
  pose proof (normalization_step_config svc st boardId fetchNormalBoardId) as Hcfg.
  destruct (normalization_step svc boardId fetchNormalBoardId st) as [[c|e] st1] eqn:Hn;
    simpl in *.
  - rewrite <- Hcfg, <- Hcon.
    destruct (allowedBoardIds (config st1)) as [ids|] eqn:Hids.
    + destruct (decide (ids = [])) as [->|Hne].
      { rewrite (checkBoardAccess_open svc st st1 boardId operation c _ Hn)
          by (by right).
        rewrite bool_decide_eq_false_2 by (by intros []).
        simpl. by rewrite app_nil_r. }
      destruct (decide (c ∈ ids)) as [Hin|Hnin].
      * rewrite (checkBoardAccess_member svc st st1 boardId operation c _ ids Hn Hids Hin).
        rewrite bool_decide_eq_false_2 by (by intros []).
        simpl. by rewrite app_nil_r.
      * rewrite (checkBoardAccess_denied svc st st1 boardId operation c _ ids
                   Hn Hids Hne Hnin).
        rewrite bool_decide_eq_true_2 by done. simpl.
        unfold denial_diagnostics. rewrite configSource_diagnostic_source.
        by destruct (debug (config st1)).
    + rewrite (checkBoardAccess_open svc st st1 boardId operation c _ Hn) by (by left).
      simpl. by rewrite app_nil_r.
  - rewrite (checkBoardAccess_unresolved svc st st1 boardId operation _ e Hn).
    simpl. by rewrite Hcon, app_nil_r.
Qed.

(** With [debug] on, the denial of board [B3] writes its two lines. *)
Example checkBoardAccess_console_denial :
  console (snd (checkBoardAccess trelloServices "b3" "create_list" true
                  (initial_state
                     (mkConfig (Some "boards.yaml") (Some "work") (Some ["B1"]) true)
                     sample_trello)))
  = [ConsoleLine "[UNAUTHORIZED] Attempted create_list on board B3 which is not in the allowed list from YAML config (boards.yaml:work).";
     ConsoleLine "[UNAUTHORIZED] Allowed board IDs: B1"].
Proof. vm_compute. reflexivity. Qed.

(** X2. A check whose identifier resolved is stable: repeated in any later
    state that has kept the cache and the configuration, it gives the same
    answer (the same [true], or the same denial) without any remote call,
    whatever the services would answer by then. *)
Theorem checkBoardAccess_repeat {R} (svc svc' : Services R) (st st1 st2 : State R)
  (boardId operation canonical : string) :
  fetchBoardNormalId svc boardId st = (Returned canonical, st1) ->
  boardIdCache (snd (checkBoardAccess svc boardId operation true st))
    ⊆ boardIdCache st2 ->
  config st2 = config st ->
  let again := checkBoardAccess svc' boardId operation true st2 in
  fst again = fst (checkBoardAccess svc boardId operation true st)
  /\ calls (snd again) = calls st2
  /\ remote (snd again) = remote st2
  /\ boardIdCache (snd again) = boardIdCache st2.
Proof.
  intros Hn Hsub Hcfg again. unfold again.
  assert (config st1 = config st) as Hcfg1.
  { pose proof (fetchBoardNormalId_frame svc st boardId) as Hf.
    rewrite Hn in Hf. by destruct Hf. }
  assert (boardIdCache (snd (checkBoardAccess svc boardId operation true st))
          = boardIdCache st1) as Hcache.
  { destruct (checkBoardAccess_cases svc st boardId operation true)
      as [(e & s1 & Hs & ->) | [(c & s1 & Hs & ->)
         | (c & s1 & ids & Hs & _ & _ & _ & ->)]];
      simpl in Hs; rewrite Hn in Hs; by simplify_eq. }
  rewrite Hcache in Hsub.
  assert (normalization_step svc' boardId true st2 = (Returned canonical, st2)) as Hn2.
  { simpl. apply fetchBoardNormalId_hit. eapply lookup_weaken; [| done].
    by eapply fetchBoardNormalId_cached_after. }
  assert (normalization_step svc boardId true st = (Returned canonical, st1)) as Hn1
    by done.
  destruct (allowedBoardIds (config st)) as [ids|] eqn:Hids.
  - destruct (decide (ids = [])) as [->|Hne].
    + rewrite (checkBoardAccess_open svc' st2 st2 boardId operation canonical true Hn2)
        by (right; congruence).
      rewrite (checkBoardAccess_open svc st st1 boardId operation canonical true Hn1)
        by (right; congruence).
      done.
    + destruct (decide (canonical ∈ ids)) as [Hin|Hnin].
      * rewrite (checkBoardAccess_member svc' st2 st2 boardId operation canonical true
                   ids Hn2) by (done || congruence).
        rewrite (checkBoardAccess_member svc st st1 boardId operation canonical true
                   ids Hn1) by (done || congruence).
        done.
      * rewrite (checkBoardAccess_denied svc' st2 st2 boardId operation canonical true
                   ids Hn2) by (done || congruence).
        rewrite (checkBoardAccess_denied svc st st1 boardId operation canonical true
                   ids Hn1) by (done || congruence).
        simpl. by rewrite Hcfg, Hcfg1.
  - rewrite (checkBoardAccess_open svc' st2 st2 boardId operation canonical true Hn2)
      by (left; congruence).
    rewrite (checkBoardAccess_open svc st st1 boardId operation canonical true Hn1)
      by (left; congruence).
    done.
Qed.

(** Board [b3] is denied; once the board has gone from the remote system,
    the same check is denied again with the same error, with no call. *)
Lemma checkBoardAccess_repeat_witness :
  let st := initial_state sample_config sample_trello in
  let st1 := snd (checkBoardAccess trelloServices "b3" "create_list" true st) in
  let st2 := mkState (config st1) (boardIdCache st1) (mkTrello [] [] []) (calls st1)
                     (console st1) in
  fst (checkBoardAccess trelloServices "b3" "create_list" true st2)
  = Threw (new_BoardAccessError "B3" "create_list" "work")
  /\ calls (snd (checkBoardAccess trelloServices "b3" "create_list" true st2))
     = [CallGetBoard "b3"].
Proof.
  intros st st1 st2.
  destruct (checkBoardAccess_repeat trelloServices trelloServices st
              (snd (fetchBoardNormalId trelloServices "b3" st)) st2
              "b3" "create_list" "B3") as (H1 & H2 & _).
  - vm_compute. reflexivity.
  - reflexivity.
  - reflexivity.
  - split; [exact H1 | exact H2].
Defined.

Lemma checkBoardAccess_calls {R} (svc : Services R) (st : State R)
  (b op : string) :
  let st' := snd (checkBoardAccess svc b op true st) in
  (is_Some (boardIdCache st !! b) /\ calls st' = calls st)
  \/ (boardIdCache st !! b = None /\ calls st' = calls st ++ [CallGetBoard b]).
Proof.
  intros st'. unfold st'.
  destruct (fetchBoardNormalId_cases svc st b)
    as [(c & Hk & Hrun) | [(x & w & Hk & _ & Hrun) | (f & w & Hk & _ & Hrun)]];
    destruct (checkBoardAccess_cases svc st b op true)
      as [(e & s1 & Hs & ->) | [(c' & s1 & Hs & ->)
         | (c' & s1 & ids & Hs & _ & _ & _ & ->)]];
    simpl in Hs; rewrite Hrun in Hs; simplify_eq; simpl; eauto.
Qed.

(** X3. The entity gates keep nothing about an entity: every call of
    [checkCardAccess] (resp. [checkListAccess]) starts with a [getCard]
    (resp. [getList]) of the entity, also when the board of the entity is
    already cached.  The only other call it may issue is the [getBoard] of
    the entity's [idBoard], and only when that id is not cached. *)
Theorem entity_gate_calls {R} (svc : Services R) (st : State R)
  (entityId operation : string) :
  (let st' := snd (checkCardAccess svc entityId operation st) in
   calls st' = calls st ++ [CallGetCard entityId]
   \/ exists card w,
       getCard svc entityId (remote st) = (inr card, w)
       /\ boardIdCache st !! card_idBoard card = None
       /\ calls st' = calls st ++ [CallGetCard entityId; CallGetBoard (card_idBoard card)])
  /\ (let st' := snd (checkListAccess svc entityId operation st) in
      calls st' = calls st ++ [CallGetList entityId]
      \/ exists list w,
          getList svc entityId (remote st) = (inr list, w)
          /\ boardIdCache st !! list_idBoard list = None
          /\ calls st' = calls st ++ [CallGetList entityId; CallGetBoard (list_idBoard list)]).
Proof.
  split.
  - destruct (getCard svc entityId (remote st)) as [[f|card] w] eqn:Hc.
    + left. by rewrite (checkCardAccess_lookup_failed svc _ _ operation _ _ Hc).
    + rewrite (checkCardAccess_delegates svc _ _ operation _ _ Hc).
      pose proof (checkBoardAccess_calls svc (after_call (CallGetCard entityId) w st)
                    (card_idBoard card)
                    (operation +:+ " (card " +:+ entityId +:+ ")")) as Hcalls.
      destruct (checkBoardAccess svc _ _ true _) as [[v|e] st']; simpl in *;
        (destruct Hcalls as [[_ ->] | [Hk ->]];
         [by left | right; exists card, w; by rewrite <- app_assoc]).
  - destruct (getList svc entityId (remote st)) as [[f|list] w] eqn:Hc.
    + left. by rewrite (checkListAccess_lookup_failed svc _ _ operation _ _ Hc).
    + rewrite (checkListAccess_delegates svc _ _ operation _ _ Hc).
      pose proof (checkBoardAccess_calls svc (after_call (CallGetList entityId) w st)
                    (list_idBoard list)
                    (operation +:+ " (list " +:+ entityId +:+ ")")) as Hcalls.
      destruct (checkBoardAccess svc _ _ true _) as [[v|e] st']; simpl in *;
        (destruct Hcalls as [[_ ->] | [Hk ->]];
         [by left | right; exists list, w; by rewrite <- app_assoc]).
Qed.

(** X4. With [confirm] set, [delete_card] deletes only behind the gate.
    When [checkCardAccess] throws, the handler throws the same error in the
    same state, after lookups only.  When it returns, [deleteCard] is the
    next and last remote call; its failure leaves the handler as the
    service threw it, neither wrapped nor turned into a
    [BoardAccessError], and its success gives the success message. *)
Theorem delete_card_behind_gate {R} (svc : Services R) (st : State R)
  (args : DeleteCardArgs) :
  ToBoolean (dc_confirm args) = true ->
  let handler := cardToolHandlers.delete_card svc args in
  match checkCardAccess svc (dc_cardId args) "delete_card" st with
  | (Threw e, st1) => handler st = (Threw e, st1) /\ no_mutation_since st st1
  | (Returned _, st1) =>
      no_mutation_since st st1
      /\ calls (snd (handler st)) = calls st1 ++ [CallDeleteCard (dc_cardId args)]
      /\ (forall f w,
            deleteCard svc (dc_cardId args) (remote st1) = (inl f, w) ->
            fst (handler st) = Threw (ServiceFailure f))
      /\ (forall u w,
            deleteCard svc (dc_cardId args) (remote st1) = (inr u, w) ->
            fst (handler st) = Returned (ResultSuccess "Card deleted successfully"))
  end.
Proof.
  intros Hconfirm handler. unfold handler, cardToolHandlers.delete_card.
  rewrite Hconfirm. simpl. unfold bind.
  destruct (checkCardAccess svc _ _ st) as [[[]|e] st1] eqn:H1;
    [| split; [done | frame_chain]].
  split_and!.
  - frame_chain.
  - rewrite <- (await_remote_calls (CallDeleteCard (dc_cardId args))
                  (deleteCard svc (dc_cardId args)) st1).
    by destruct (await_remote _ _ st1) as [[[]|e] st2].
  - intros f w Hd. unfold await_remote. by rewrite Hd.
  - intros u w Hd. unfold await_remote. by rewrite Hd.
Qed.

(** Confirmed, the deletion of card [C1] of the allowed board [B1] goes
    through; the card is gone from the remote system. *)
Lemma delete_card_behind_gate_witness :
  let run := cardToolHandlers.delete_card trelloServices
               (mkDeleteCardArgs "C1" (JsBool true))
               (initial_state sample_config sample_trello) in
  calls (snd run) = [CallGetCard "C1"; CallGetBoard "B1"; CallDeleteCard "C1"].
Proof.
  generalize (delete_card_behind_gate trelloServices
                (initial_state sample_config sample_trello)
                (mkDeleteCardArgs "C1" (JsBool true)) eq_refl).
  vm_compute. intros (_ & H & _). exact H.
Defined.

(** X5. Whatever a modelled handler throws, other than a failure of its
    own remote call, it throws before changing anything: when
    [delete_card], [move_card_to_list], [move_list_to_board] or
    [move_all_cards] throws an error that is not a [ServiceFailure] (so on
    every [BoardAccessError] and on every failed entity lookup), only
    lookups have been issued. *)
Theorem handler_errors_precede_mutation {R} (svc : Services R) (st : State R) (e : exn) :
  (forall f, e <> ServiceFailure f) ->
  (forall args,
      fst (cardToolHandlers.delete_card svc args st) = Threw e ->
      no_mutation_since st (snd (cardToolHandlers.delete_card svc args st)))
  /\ (forall args,
        fst (cardToolHandlers.move_card_to_list svc args st) = Threw e ->
        no_mutation_since st (snd (cardToolHandlers.move_card_to_list svc args st)))
  /\ (forall args,
        fst (listToolHandlers.move_list_to_board svc args st) = Threw e ->
        no_mutation_since st (snd (listToolHandlers.move_list_to_board svc args st)))
  /\ (forall args,
        fst (listToolHandlers.move_all_cards svc args st) = Threw e ->
        no_mutation_since st (snd (listToolHandlers.move_all_cards svc args st))).
Proof.
  intros Hnot. split_and!; intros args.
  - unfold cardToolHandlers.delete_card.
    destruct (negb (ToBoolean (dc_confirm args))).
    { intros _. simpl. apply gate_frame_no_mutation, gate_frame_refl. }
    unfold bind.
    destruct (checkCardAccess svc _ _ st) as [[[]|e1] st1] eqn:H1; simpl;
      [| intros _; frame_chain].
    unfold await_remote. destruct (deleteCard svc _ (remote st1)) as [[f|u] w]; simpl.
    + intros [= <-]. by destruct (Hnot f).
    + discriminate.
  - unfold cardToolHandlers.move_card_to_list, bind.
    destruct (checkCardAccess svc _ _ st) as [[[]|e1] st1] eqn:H1; simpl;
      [| intros _; frame_chain].
    destruct (checkListAccess svc _ _ st1) as [[[]|e2] st2] eqn:H2; simpl;
      [| intros _; frame_chain].
    unfold await_remote. destruct (moveCardToList svc _ _ (remote st2)) as [[f|u] w]; simpl.
    + intros [= <-]. by destruct (Hnot f).
    + discriminate.
  - unfold listToolHandlers.move_list_to_board, bind.
    destruct (checkListAccess svc _ _ st) as [[[]|e1] st1] eqn:H1; simpl;
      [| intros _; frame_chain].
    destruct (checkBoardAccess svc _ _ true st1) as [[v|e2] st2] eqn:H2; simpl;
      [| intros _; frame_chain].
    unfold await_remote. destruct (moveListToBoard svc _ _ (remote st2)) as [[f|u] w]; simpl.
    + intros [= <-]. by destruct (Hnot f).
    + discriminate.
  - unfold listToolHandlers.move_all_cards, bind.
    destruct (checkListAccess svc _ _ st) as [[[]|e1] st1] eqn:H1; simpl;
      [| intros _; frame_chain].
    destruct (checkListAccess svc _ _ st1) as [[[]|e2] st2] eqn:H2; simpl;
      [| intros _; frame_chain].
    destruct (ma_boardId args) as [b|]; [destruct (truthy_string b) |]; unfold ret, bind.
    + destruct (checkBoardAccess svc b _ true st2) as [[v|e3] st3] eqn:H3; simpl;
        [| intros _; frame_chain].
      unfold await_remote.
      destruct (moveAllCards svc _ _ _ (remote st3)) as [[f|u] w]; simpl.
      * intros [= <-]. by destruct (Hnot f).
      * discriminate.
    + unfold await_remote.
      destruct (moveAllCards svc _ _ _ (remote st2)) as [[f|u] w]; simpl.
      * intros [= <-]. by destruct (Hnot f).
      * discriminate.
    + unfold await_remote.
      destruct (moveAllCards svc _ _ _ (remote st2)) as [[f|u] w]; simpl.
      * intros [= <-]. by destruct (Hnot f).
      * discriminate.
Qed.

(** The denied move of card [C1] to list [L2] has issued lookups only. *)
Lemma handler_errors_precede_mutation_witness :
  no_mutation_since
    (initial_state sample_config sample_trello)
    (snd (cardToolHandlers.move_card_to_list trelloServices
            (mkMoveCardToListArgs "C1" "L2")
            (initial_state sample_config sample_trello))).
Proof.
  refine (proj1 (proj2 (handler_errors_precede_mutation trelloServices
                          (initial_state sample_config sample_trello)
                          (new_BoardAccessError "B3" "move_card_to_list (target) (list L2)"
                                                "work") _))
                (mkMoveCardToListArgs "C1" "L2") _).
  - discriminate.
  - reflexivity.
Defined.

(** X6. [get_card] and [get_list] read behind the gate and never write:
    they issue lookups only; when the entity gate throws they throw its
    error in its state, without fetching the entity again; and what they
    return is the answer of a second fetch, issued after the gate
    returned. *)
Theorem read_handlers_behind_gate {R} (svc : Services R) (st : State R)
  (entityId : string) :
  (let run := cardToolHandlers.get_card svc entityId st in
   no_mutation_since st (snd run)
   /\ match checkCardAccess svc entityId "get_card" st with
      | (Threw e, st1) => run = (Threw e, st1)
      | (Returned _, st1) =>
          calls (snd run) = calls st1 ++ [CallGetCard entityId]
          /\ forall card w,
              getCard svc entityId (remote st1) = (inr card, w) ->
              fst run = Returned (ResultCard card)
      end)
  /\ (let run := listToolHandlers.get_list svc entityId st in
      no_mutation_since st (snd run)
      /\ match checkListAccess svc entityId "get_list" st with
         | (Threw e, st1) => run = (Threw e, st1)
         | (Returned _, st1) =>
             calls (snd run) = calls st1 ++ [CallGetList entityId]
             /\ forall list w,
                 getList svc entityId (remote st1) = (inr list, w) ->
                 fst run = Returned (ResultList list)
         end).
Proof.
  split; intros run; unfold run.
  - unfold cardToolHandlers.get_card, bind.
    destruct (checkCardAccess svc _ _ st) as [[[]|e] st1] eqn:H1;
      [| split; [frame_chain | done]].
    unfold await_remote.
    destruct (getCard svc entityId (remote st1)) as [[f|card] w] eqn:Hc; simpl;
      fold (after_call (CallGetCard entityId) w st1);
      (split; [| split; [done | by intros ? ? [= <- <-]]]);
      apply gate_frame_no_mutation;
      (eapply gate_frame_trans; [| by apply (gate_frame_lookup (CallGetCard entityId) w)]);
      pose proof (checkCardAccess_frame svc st entityId "get_card") as Hf;
      by rewrite H1 in Hf.
  - unfold listToolHandlers.get_list, bind.
    destruct (checkListAccess svc _ _ st) as [[[]|e] st1] eqn:H1;
      [| split; [frame_chain | done]].
    unfold await_remote.
    destruct (getList svc entityId (remote st1)) as [[f|list] w] eqn:Hc; simpl;
      fold (after_call (CallGetList entityId) w st1);
      (split; [| split; [done | by intros ? ? [= <- <-]]]);
      apply gate_frame_no_mutation;
      (eapply gate_frame_trans; [| by apply (gate_frame_lookup (CallGetList entityId) w)]);
      pose proof (checkListAccess_frame svc st entityId "get_list") as Hf;
      by rewrite H1 in Hf.
Qed.

(** Card [C1] is read with two fetches and the resolution of its board. *)
Lemma read_handlers_behind_gate_witness :
  fst (cardToolHandlers.get_card trelloServices "C1"
                                 (initial_state sample_config sample_trello))
  = Returned (ResultCard (mkCard "C1" "B1")).
Proof.
  generalize (proj1 (read_handlers_behind_gate trelloServices
                       (initial_state sample_config sample_trello) "C1")).
  vm_compute. intros (_ & _ & H). exact (H (mkCard "C1" "B1") sample_trello eq_refl).
Defined.

(** ** The command line ([config.ts]) *)

Lemma append_cons (c : Ascii.ascii) (a b : string) :
  String c a +:+ b = String c (a +:+ b).
Proof. done. Qed.

Lemma split_not_nil (sep : Ascii.ascii) (s : string) : split sep s <> [].
Proof.
  destruct s as [|c s]; simpl; [done |].
  destruct (Ascii.eqb c sep); [done |]. by destruct (split sep s).
Qed.

Lemma split_pieces (sep : Ascii.ascii) (s : string) :
  Forall (fun piece => has_char sep piece = false) (split sep s).
Proof.
  induction s as [|c s IH]; simpl.
  - by constructor.
  - destruct (Ascii.eqb c sep) eqn:Hc.
    + by constructor.
    + destruct (split sep s) as [|first others]; simpl.
      * constructor; [simpl; by rewrite Hc | constructor].
      * inversion IH as [|? ? Hfirst Hothers]; subst.
        constructor; [simpl; by rewrite Hc | done].
Qed.

Lemma split_free (sep : Ascii.ascii) (s : string) :
  has_char sep s = false -> split sep s = [s].
Proof.
  induction s as [|c s IH]; simpl; [done |].
  intros [Hc Hs]%orb_false_iff. by rewrite Hc, (IH Hs).
Qed.

Lemma split_first (sep : Ascii.ascii) (first rest : string) :
  has_char sep first = false ->
  split sep (first +:+ String sep rest) = first :: split sep rest.
Proof.
  induction first as [|c first IH]; simpl.
  - intros _. change ("" +:+ String sep rest) with (String sep rest). simpl.
    by rewrite Ascii.eqb_refl.
  - intros [Hc Hs]%orb_false_iff. by rewrite Hc, (IH Hs).
Qed.

Lemma set_property_plain (key value : string) (env : gmap string string) :
  key <> "__proto__" -> set_property key value env = <[key := value]> env.
Proof. intros Hne. unfold set_property. by destruct (String.eqb_spec key "__proto__"). Qed.

Lemma assign_env_plain (key value tail : string) (env : gmap string string) :
  plain_key key -> plain value ->
  (tail = "" \/ exists more, tail = String equals_sign more) ->
  assign_env (key +:+ "=" +:+ value +:+ tail) env = <[key := value]> env.
Proof.
  intros [[Hk1 Hk2] Hproto] [Hv1 Hv2] Htail. unfold assign_env.
  change (key +:+ "=" +:+ value +:+ tail)
    with (key +:+ String equals_sign (value +:+ tail)).
  rewrite (split_first _ _ _ Hk2).
  destruct Htail as [->|[more ->]].
  - rewrite append_empty_r, (split_free _ _ Hv2).
    by rewrite Hk1, Hv1, set_property_plain.
  - rewrite (split_first _ _ _ Hv2). by rewrite Hk1, Hv1, set_property_plain.
Qed.

Lemma parse_env_args_flag (assignment : string) (rest : list string)
  (env : gmap string string) :
  parse_env_args ("--env" :: assignment :: rest) env
  = parse_env_args rest (assign_env assignment env).
Proof. done. Qed.

Lemma parse_env_args_other (arg : string) (rest : list string)
  (env : gmap string string) :
  arg <> "--env" -> parse_env_args (arg :: rest) env = parse_env_args rest env.
Proof.
  intros Hne. simpl. by destruct (String.eqb_spec arg "--env").
Qed.

(** Induction along the loop: it steps over one argument, or over an
    [--env] and the argument that follows it. *)
Lemma parse_env_args_ind (P : list string -> gmap string string -> Prop) :
  (forall env, P [] env) ->
  (forall env, P ["--env"] env) ->
  (forall arg rest env, arg <> "--env" -> P rest env -> P (arg :: rest) env) ->
  (forall assignment rest env,
      P rest (assign_env assignment env) -> P ("--env" :: assignment :: rest) env) ->
  forall args env, P args env.
Proof.
  intros Hnil Hlast Hother Hflag args.
  assert (forall n args, length args <= n -> forall env, P args env) as Hall.
  { intros n. induction n as [|n IH]; intros l Hlen env.
    - destruct l; [apply Hnil | simpl in Hlen; lia].
    - destruct l as [|arg rest]; [apply Hnil |].
      destruct (decide (arg = "--env")) as [->|Hne].
      + destruct rest as [|assignment rest]; [apply Hlast |].
        apply Hflag, IH. simpl in Hlen. lia.
      + apply Hother; [done |]. apply IH. simpl in Hlen. lia. }
  intros env. by apply (Hall (length args)).
Qed.

Lemma parse_env_args_plain (args : list string) (env : gmap string string) :
  (forall k v, env !! k = Some v -> plain_key k /\ plain v) ->
  forall k v, parse_env_args args env !! k = Some v -> plain_key k /\ plain v.
Proof.
  revert args env.
  apply (parse_env_args_ind
           (fun args env =>
              (forall k v, env !! k = Some v -> plain_key k /\ plain v) ->
              forall k v, parse_env_args args env !! k = Some v ->
                          plain_key k /\ plain v)).
  - done.
  - done.
  - intros arg rest env Hne IH Henv k v. rewrite parse_env_args_other by done.
    by apply IH.
  - intros assignment rest env IH Henv k v. rewrite parse_env_args_flag.
    apply IH. clear k v. intros k v. unfold assign_env.
    pose proof (split_pieces equals_sign assignment) as Hpieces.
    destruct (split equals_sign assignment) as [|k0 [|v0 others]]; try by apply Henv.
    destruct (truthy_string k0) eqn:Hk0; simpl; [| by apply Henv].
    destruct (truthy_string v0) eqn:Hv0; simpl; [| by apply Henv].
    inversion Hpieces as [|? ? Hk Hrest]; subst.
    inversion Hrest as [|? ? Hv _]; subst.
    unfold set_property. destruct (String.eqb_spec k0 "__proto__") as [->|Hproto];
      [by apply Henv |].
    destruct (decide (k0 = k)) as [<-|Hne].
    + rewrite lookup_insert_eq. by intros [= <-].
    + rewrite lookup_insert_ne by done. by apply Henv.
Qed.

Lemma envArgs_plain (argv : list string) (key value : string) :
  envArgs argv !! key = Some value -> plain_key key /\ plain value.
Proof.
  apply parse_env_args_plain. intros k v. by rewrite lookup_empty.
Qed.

(** X7. Whatever the command line, [envArgs] holds no empty key and no
    empty value, neither keys nor values contain an [=], and no key is
    [__proto__]; so a value found in [envArgs] is never passed over by the
    [||] that follows it. *)
Theorem envArgs_entries_plain (argv : list string) (env : gmap string string)
  (key value : string) :
  envArgs argv !! key = Some value ->
  plain_key key /\ plain value /\ setting argv env key = Some value.
Proof.
  intros Hkv. destruct (envArgs_plain argv key value Hkv) as [Hk Hv].
  split_and!; try done.
  unfold setting, or_else. rewrite Hkv. simpl. by destruct Hv as [-> _].
Qed.

Lemma envArgs_entries_plain_witness :
  plain_key "TRELLO_TOKEN" /\ plain "abc"
  /\ setting ["node"; "index.js"; "--env"; "TRELLO_TOKEN=abc=def"]
             {["TRELLO_TOKEN" := "from-the-environment"]} "TRELLO_TOKEN"
     = Some "abc".
Proof.
  exact (envArgs_entries_plain ["node"; "index.js"; "--env"; "TRELLO_TOKEN=abc=def"]
                               {["TRELLO_TOKEN" := "from-the-environment"]}
                               "TRELLO_TOKEN" "abc" eq_refl).
Defined.

Lemma parse_env_args_flags (settings : list (string * string)) (rest : list string)
  (env : gmap string string) :
  Forall (fun s => plain_key s.1 /\ plain s.2) settings ->
  parse_env_args (env_flags settings ++ rest) env
  = parse_env_args rest (foldl (fun e s => <[s.1 := s.2]> e) env settings).
Proof.
  intros Hplain. revert env.
  induction Hplain as [|[k v] settings [Hk Hv] _ IH]; intros env; [done |].
  simpl env_flags. simpl app. rewrite parse_env_args_flag.
  pose proof (assign_env_plain k v "" env Hk Hv (or_introl eq_refl)) as Ha.
  rewrite append_empty_r in Ha. rewrite Ha. apply IH.
Qed.

(** X8. The command line [--env k1=v1 --env k2=v2 ...], with keys and
    values that are not empty and contain no [=], and no key [__proto__],
    is read back as it was
    written: [envArgs] is the map obtained by assigning the settings from
    left to right, so a setting given twice keeps its last value. *)
Theorem envArgs_round_trip (node script : string) (settings : list (string * string)) :
  Forall (fun s => plain_key s.1 /\ plain s.2) settings ->
  envArgs (node :: script :: env_flags settings)
  = foldl (fun e s => <[s.1 := s.2]> e) ∅ settings
  /\ forall key value,
      plain_key key -> plain value ->
      envArgs (node :: script :: env_flags (settings ++ [(key, value)])) !! key
      = Some value.
Proof.
  intros Hplain.
  assert (forall l, Forall (fun s => plain_key s.1 /\ plain s.2) l ->
                    envArgs (node :: script :: env_flags l)
                    = foldl (fun e s => <[s.1 := s.2]> e) ∅ l) as Hread.
  { intros l Hl. unfold envArgs.
    change (drop 2 (node :: script :: env_flags l)) with (env_flags l).
    rewrite <- (app_nil_r (env_flags l)). by rewrite parse_env_args_flags. }
  split; [by apply Hread |].
  intros key value Hk Hv. rewrite Hread.
  - rewrite foldl_app. simpl. apply lookup_insert_eq.
  - apply Forall_app. split; [done |]. by constructor.
Qed.

Lemma envArgs_round_trip_witness :
  envArgs ["node"; "index.js"; "--env"; "DEBUG=true"; "--env"; "DEBUG=false"] !! "DEBUG"
  = Some "false".
Proof.
  refine (proj2 (envArgs_round_trip "node" "index.js" [("DEBUG", "true")] _)
                "DEBUG" "false" _ _).
  - by repeat constructor.
  - by split.
  - by split.
Defined.

(** X9. What the loop passes over.  Arguments other than [--env] change
    nothing; an [--env] in last position is ignored; the argument after an
    [--env] is consumed, and is dropped when it has no [=], an empty key,
    an empty value or the key [__proto__]; and a value stops at its second
    [=]. *)
Theorem envArgs_ignored (args rest : list string) (env : gmap string string) :
  ("--env" ∉ args -> parse_env_args (args ++ rest) env = parse_env_args rest env)
  /\ parse_env_args (args ++ ["--env"]) env = parse_env_args args env
  /\ (forall assignment,
        has_char equals_sign assignment = false ->
        parse_env_args ("--env" :: assignment :: rest) env = parse_env_args rest env)
  /\ (forall value,
        parse_env_args ("--env" :: String equals_sign value :: rest) env
        = parse_env_args rest env)
  /\ (forall key tail,
        plain key ->
        tail = "" \/ (exists more, tail = String equals_sign more) ->
        parse_env_args ("--env" :: (key +:+ "=" +:+ tail) :: rest) env
        = parse_env_args rest env)
  /\ (forall value,
        plain value ->
        parse_env_args ("--env" :: ("__proto__=" +:+ value) :: rest) env
        = parse_env_args rest env)
  /\ (forall key value more,
        plain_key key -> plain value ->
        parse_env_args ("--env" :: (key +:+ "=" +:+ value +:+ "=" +:+ more) :: rest) env
        = parse_env_args rest (<[key := value]> env)).
Proof.
  split_and!.
  - induction args as [|arg args IH]; [done |].
    intros Hnot. apply not_elem_of_cons in Hnot as [Hne Hnot].
    simpl app. rewrite parse_env_args_other by done. by apply IH.
  - revert env.
    apply (parse_env_args_ind
             (fun args env =>
                parse_env_args (args ++ ["--env"]) env = parse_env_args args env)).
    + done.
    + intros e. simpl app. by rewrite parse_env_args_flag.
    + intros arg l e Hne IH. simpl app. by rewrite !parse_env_args_other.
    + intros assignment l e IH. simpl app. by rewrite !parse_env_args_flag.
  - intros assignment Hfree. rewrite parse_env_args_flag.
    unfold assign_env. by rewrite (split_free _ _ Hfree).
  - intros value. rewrite parse_env_args_flag. unfold assign_env.
    change (String equals_sign value) with ("" +:+ String equals_sign value).
    rewrite split_first by done. by destruct (split equals_sign value).
  - intros key tail [Hk1 Hk2] Htail. rewrite parse_env_args_flag. unfold assign_env.
    change (key +:+ "=" +:+ tail) with (key +:+ String equals_sign tail).
    rewrite (split_first _ _ _ Hk2).
    destruct Htail as [->|[more ->]]; simpl; by rewrite andb_false_r.
  - intros value [Hv1 Hv2]. rewrite parse_env_args_flag. unfold assign_env.
    change ("__proto__=" +:+ value) with ("__proto__" +:+ String equals_sign value).
    rewrite split_first by done. rewrite (split_free _ _ Hv2). simpl.
    by rewrite Hv1.
  - intros key value more Hk Hv. rewrite parse_env_args_flag.
    by rewrite (assign_env_plain key value ("=" +:+ more) env Hk Hv)
      by (right; by exists more).
Qed.

Lemma envArgs_ignored_witness :
  parse_env_args ["--env"; "TRELLO_TOKEN=abc=def"; "--verbose"] ∅
  = parse_env_args ["--verbose"] (<["TRELLO_TOKEN" := "abc"]> ∅).
Proof.
  refine (proj2 (proj2 (proj2 (proj2 (proj2 (proj2
            (envArgs_ignored [] ["--verbose"] ∅))))))
          "TRELLO_TOKEN" "abc" "def" _ _); by split.
Defined.

(** ** Loading the allow-list and the configuration ([config.ts]) *)

Lemma or_default_truthy (a : option string) (v : string) :
  a = Some v -> truthy_string v = true -> forall d, or_default a d = v.
Proof. intros -> Hv d. simpl. by rewrite Hv. Qed.

Lemma configuration_fields (rt : Runtime) (argv : list string)
  (env : gmap string string) (c : Configuration) :
  configuration rt argv env = Returned c ->
  apiKey c = or_default (setting argv env "API_KEY") ""
  /\ trello_apiKey c = or_default (setting argv env "TRELLO_API_KEY") ""
  /\ trello_token c = or_default (setting argv env "TRELLO_TOKEN") ""
  /\ trello_configPath c = setting argv env "TRELLO_MCP_CONFIG_PATH"
  /\ trello_allowedBoardsKey c = setting argv env "TRELLO_ALLOWED_BOARDS_KEY"
  /\ loadAllowedBoardIds rt (trello_configPath c) (trello_allowedBoardsKey c)
     = Returned (trello_allowedBoardIds c)
  /\ configuration_debug c
     = String.eqb (toLowerCase (or_default (setting argv env "DEBUG") "false")) "true"
  /\ validateConfig c = Returned tt.
Proof.
  unfold configuration. fold (setting argv env).
  destruct (loadAllowedBoardIds rt _ _) as [ids|e] eqn:Hload; [| done].
  destruct (validateConfig _) as [[]|e] eqn:Hvalid; [| done].
  intros [= <-]. simpl. by rewrite Hload, Hvalid.
Qed.

Lemma envArgs_env_flags (node script : string) (settings : list (string * string)) :
  Forall (fun s => plain_key s.1 /\ plain s.2) settings ->
  envArgs (node :: script :: env_flags settings)
  = foldl (fun e s => <[s.1 := s.2]> e) ∅ settings.
Proof.
  intros Hplain. unfold envArgs.
  change (drop 2 (node :: script :: env_flags settings)) with (env_flags settings).
  rewrite <- (app_nil_r (env_flags settings)). by rewrite parse_env_args_flags.
Qed.

Lemma foldl_insert_last (name : string) (settings : list (string * string))
  (env : gmap string string) :
  foldl (fun e s => <[s.1 := s.2]> e) env settings !! name
  = match last_setting name settings with
    | Some value => Some value
    | None => env !! name
    end.
Proof.
  revert env. induction settings as [|[k v] settings IH]; intros env; [done |].
  simpl. rewrite IH. destruct (last_setting name settings); [done |].
  case_decide as Hk.
  - subst. apply lookup_insert_eq.
  - by apply lookup_insert_ne.
Qed.

(** X10. On a command line made of [--env KEY=value] arguments, with keys
    and values that are not empty and contain no [=], and no key
    [__proto__], the value given last to each of [API_KEY],
    [TRELLO_API_KEY], [TRELLO_TOKEN], [TRELLO_MCP_CONFIG_PATH],
    [TRELLO_ALLOWED_BOARDS_KEY] and [DEBUG] is the one in force in the
    configuration that loads, whatever [process.env] holds for that name. *)
Theorem command_line_takes_precedence (rt : Runtime) (node script : string)
  (settings : list (string * string)) (env : gmap string string) (c : Configuration) :
  Forall (fun s => plain_key s.1 /\ plain s.2) settings ->
  configuration rt (node :: script :: env_flags settings) env = Returned c ->
  (forall v, last_setting "API_KEY" settings = Some v -> apiKey c = v)
  /\ (forall v, last_setting "TRELLO_API_KEY" settings = Some v -> trello_apiKey c = v)
  /\ (forall v, last_setting "TRELLO_TOKEN" settings = Some v -> trello_token c = v)
  /\ (forall v, last_setting "TRELLO_MCP_CONFIG_PATH" settings = Some v ->
                trello_configPath c = Some v)
  /\ (forall v, last_setting "TRELLO_ALLOWED_BOARDS_KEY" settings = Some v ->
                trello_allowedBoardsKey c = Some v)
  /\ (forall v, last_setting "DEBUG" settings = Some v ->
                configuration_debug c = String.eqb (toLowerCase v) "true").
Proof.
  intros Hplain Hc. set (argv := node :: script :: env_flags settings) in *.
  destruct (configuration_fields rt argv env c Hc)
    as (Hk & Ha & Ht & Hp & Hb & _ & Hd & _).
  assert (forall name v, last_setting name settings = Some v ->
                         setting argv env name = Some v /\ truthy_string v = true)
    as Hset.
  { intros name v Hv.
    assert (envArgs argv !! name = Some v) as Hargs.
    { unfold argv. rewrite (envArgs_env_flags node script settings Hplain).
      by rewrite foldl_insert_last, Hv. }
    destruct (envArgs_plain argv name v Hargs) as [_ [Htr _]].
    split; [| done]. unfold setting, or_else. rewrite Hargs. simpl. by rewrite Htr. }
  split_and!; intros v Hv; destruct (Hset _ v Hv) as [Hs Htr].
  - rewrite Hk. by apply or_default_truthy.
  - rewrite Ha. by apply or_default_truthy.
  - rewrite Ht. by apply or_default_truthy.
  - by rewrite Hp.
  - by rewrite Hb.
  - rewrite Hd. by rewrite (or_default_truthy _ v Hs Htr).
Qed.

Lemma command_line_takes_precedence_witness :
  trello_allowedBoardsKey sample_configuration = Some "none".
Proof.
  refine (proj1 (proj2 (proj2 (proj2 (proj2
            (command_line_takes_precedence sample_runtime "node" "index.js"
               [("TRELLO_ALLOWED_BOARDS_KEY", "work");
                ("TRELLO_ALLOWED_BOARDS_KEY", "none")]
               sample_env sample_configuration _ _)))))
          "none" eq_refl).
  - by repeat constructor.
  - vm_compute. reflexivity.
Defined.

Lemma map_board_ids_returns (rt : Runtime) (key : string) (boards ids : list Yaml) :
  map_board_ids rt key boards = inr ids
  <-> Forall2 (fun board id => board_id_property rt board = inr id
                               /\ truthy_yaml id = true) boards ids.
Proof.
  revert ids. induction boards as [|board boards IH]; intros ids; simpl.
  - split; [intros [= <-]; constructor | by intros ->%Forall2_nil_inv_l].
  - split.
    + destruct (board_id_property rt board) as [m|id] eqn:Hid; [done |].
      destruct (truthy_yaml id) eqn:Htr; simpl; [| done].
      destruct (map_board_ids rt key boards) as [m|ids'] eqn:Hrest; [done |].
      intros [= <-]. constructor; [done |]. by apply IH.
    + intros (id & ids' & [Hb Ht] & Hf & ->)%Forall2_cons_inv_l.
      apply IH in Hf. by rewrite Hb, Ht, Hf.
Qed.

(** X11. [loadAllowedBoardIds] has three outcomes.  It returns
    [undefined] exactly when the path or the key is missing or empty, and
    then whatever the file system holds.  Every error it throws, be it a
    missing file, a read or parse error, or an entry it rejects, is an
    [Error] whose message starts with [Failed to load board configuration: ].
    Otherwise it returns the list of ids. *)
Theorem loadAllowedBoardIds_outcomes (rt : Runtime) (configPath allowedBoardsKey : option string) :
  (loadAllowedBoardIds rt configPath allowedBoardsKey = Returned None
   <-> truthy_opt configPath = false \/ truthy_opt allowedBoardsKey = false)
  /\ (forall e,
        loadAllowedBoardIds rt configPath allowedBoardsKey = Threw e ->
        exists message,
          e = Error ("Failed to load board configuration: " +:+ message))
  /\ (forall rt',
        truthy_opt configPath = false \/ truthy_opt allowedBoardsKey = false ->
        loadAllowedBoardIds rt' configPath allowedBoardsKey = Returned None).
Proof.
  assert (forall r,
             truthy_opt configPath = false \/ truthy_opt allowedBoardsKey = false ->
             loadAllowedBoardIds r configPath allowedBoardsKey = Returned None) as Hnone.
  { intros r. unfold loadAllowedBoardIds.
    destruct configPath as [p|], allowedBoardsKey as [k|]; simpl; try done.
    intros [-> | ->]; [done | by rewrite orb_true_r]. }
  split_and!; [split; [| apply Hnone] | | apply Hnone].
  - unfold loadAllowedBoardIds.
    destruct configPath as [p|], allowedBoardsKey as [k|]; simpl; auto.
    destruct (truthy_string p), (truthy_string k); simpl; auto.
    by destruct (load_body rt p k).
  - intros e. unfold loadAllowedBoardIds.
    destruct configPath as [p|], allowedBoardsKey as [k|]; try done.
    destruct (negb (truthy_string p) || negb (truthy_string k)); [done |].
    destruct (load_body rt p k) as [m|ids]; [| done].
    intros [= <-]. by eexists.
Qed.

Lemma loadAllowedBoardIds_outcomes_witness :
  loadAllowedBoardIds sample_runtime (Some "boards.yaml") (Some "") = Returned None.
Proof.
  exact (proj2 (proj2 (loadAllowedBoardIds_outcomes sample_runtime
                         (Some "boards.yaml") (Some "")))
               sample_runtime (or_intror eq_refl)).
Defined.

Lemma loadAllowedBoardIds_returns_inv (rt : Runtime)
  (configPath allowedBoardsKey : option string) (ids : list Yaml) :
  loadAllowedBoardIds rt configPath allowedBoardsKey = Returned (Some ids) ->
  exists path key fileContents config boards,
    configPath = Some path /\ allowedBoardsKey = Some key
    /\ truthy_string path = true /\ truthy_string key = true
    /\ existsSync rt path = true
    /\ readFileSync rt path = inr fileContents
    /\ yaml_load rt fileContents = inr config
    /\ read_document rt config key = inr (YSeq boards)
    /\ Forall2 (fun board id => board_id_property rt board = inr id
                                /\ truthy_yaml id = true) boards ids.
Proof.
  unfold loadAllowedBoardIds.
  destruct configPath as [p|], allowedBoardsKey as [k|]; try done.
  destruct (truthy_string p) eqn:Hp, (truthy_string k) eqn:Hk; simpl; try done.
  destruct (load_body rt p k) as [m|ids'] eqn:Hbody; [done |].
  intros [= ->]. unfold load_body in Hbody.
  destruct (existsSync rt p) eqn:Hex; simpl in Hbody; [| done].
  destruct (readFileSync rt p) as [m|contents] eqn:Hread; [done |].
  destruct (yaml_load rt contents) as [m|config] eqn:Hparse; [done |].
  destruct (read_document rt config k) as [m|value] eqn:Hprop; [done |].
  destruct (truthy_yaml value) eqn:Htr; simpl in Hbody; [| done].
  destruct value as [v|boards|fields|t]; try done.
  apply map_board_ids_returns in Hbody.
  exists p, k, contents, config, boards. by split_and!.
Qed.

(** X12. [loadAllowedBoardIds] returns a list exactly when the path and
    the key are given, the file exists, is read and parsed to a mapping,
    the key holds a sequence, and every entry of the sequence has a truthy
    [id].  The list then holds the [id] of each entry, in the order of the
    file, one per entry.  A document that is empty or null, a key that is
    absent or holds anything but a sequence, and an entry without [id]
    each make the call throw. *)
Theorem loadAllowedBoardIds_returns_ids (rt : Runtime)
  (configPath allowedBoardsKey : option string) (ids : list Yaml) :
  loadAllowedBoardIds rt configPath allowedBoardsKey = Returned (Some ids)
  <-> exists path key fileContents config boards,
      configPath = Some path /\ allowedBoardsKey = Some key
      /\ truthy_string path = true /\ truthy_string key = true
      /\ existsSync rt path = true
      /\ readFileSync rt path = inr fileContents
      /\ yaml_load rt fileContents = inr config
      /\ read_document rt config key = inr (YSeq boards)
      /\ Forall2 (fun board id => board_id_property rt board = inr id
                                  /\ truthy_yaml id = true) boards ids
      /\ length ids = length boards.
Proof.
  split.
  - intros (p & k & contents & config & boards & H)%loadAllowedBoardIds_returns_inv.
    exists p, k, contents, config, boards.
    destruct H as (? & ? & ? & ? & ? & ? & ? & ? & Hids). split_and!; try done.
    symmetry. by eapply Forall2_length.
  - intros (p & k & contents & config & boards & -> & -> & Hp & Hk & Hex & Hread
            & Hparse & Hprop & Hids & _).
    unfold loadAllowedBoardIds, load_body.
    rewrite Hp, Hk, Hex, Hread, Hparse, Hprop. simpl.
    apply (map_board_ids_returns rt k) in Hids. by rewrite Hids.
Qed.

Lemma loadAllowedBoardIds_returns_ids_witness :
  loadAllowedBoardIds sample_runtime (Some "boards.yaml") (Some "work")
  = Returned (Some [YScalar (JsString "B1")]).
Proof.
  apply (proj2 (loadAllowedBoardIds_returns_ids sample_runtime (Some "boards.yaml")
                  (Some "work") [YScalar (JsString "B1")])).
  exists "boards.yaml", "work", "work: ...",
    (DocMapping
       [("work", YSeq [YMap [("name", YScalar (JsString "Work"));
                             ("id", YScalar (JsString "B1"))]]);
        ("none", YSeq [])]),
    [YMap [("name", YScalar (JsString "Work")); ("id", YScalar (JsString "B1"))]].
  split_and!; try reflexivity. repeat constructor.
Defined.

Lemma validateConfig_returns (c : Configuration) :
  validateConfig c = Returned tt
  <-> truthy_string (apiKey c) = true
      /\ truthy_string (trello_apiKey c) = true
      /\ truthy_string (trello_token c) = true.
Proof.
  unfold validateConfig.
  destruct (truthy_string (apiKey c)), (truthy_string (trello_apiKey c)),
    (truthy_string (trello_token c)); simpl; split; try done; by intros (? & ? & ?).
Qed.

Lemma string_ids_truthy (ids : list Yaml) (ss : list string) :
  string_ids ids = Some ss ->
  Forall (fun id => truthy_yaml id = true) ids ->
  Forall (fun s => truthy_string s = true) ss.
Proof.
  revert ss. induction ids as [|id ids IH]; intros ss; simpl.
  - intros [= <-] _. constructor.
  - destruct id as [[| | | |s]| | |]; try done.
    destruct (string_ids ids) as [ss'|]; [| done].
    intros [= <-] Hall. inversion Hall; subst. constructor; [done |]. by apply IH.
Qed.

(** X13. A configuration that loaded is sound for the gate.  The three
    credentials are not empty.  An allow-list is defined exactly when both
    the path and the key of the YAML file are given and not empty.  So
    whenever the gate holds an allow-list, the key it puts in the message
    of a denial is the configured key, never [undefined], the source it
    names in diagnostics is the YAML file, and no id of the list is
    empty. *)
Theorem configuration_sound (rt : Runtime) (argv : list string)
  (env : gmap string string) (c : Configuration) :
  configuration rt argv env = Returned c ->
  truthy_string (apiKey c) = true
  /\ truthy_string (trello_apiKey c) = true
  /\ truthy_string (trello_token c) = true
  /\ (is_Some (trello_allowedBoardIds c)
      <-> truthy_opt (trello_configPath c) = true
          /\ truthy_opt (trello_allowedBoardsKey c) = true)
  /\ (forall cfg ids,
        gate_config c = Some cfg ->
        allowedBoardIds cfg = Some ids ->
        exists path key,
          configPath cfg = Some path /\ allowedBoardsKey cfg = Some key
          /\ truthy_string key = true
          /\ interpolate (allowedBoardsKey cfg) = key
          /\ configSource cfg = "YAML config (" +:+ path +:+ ":" +:+ key +:+ ")"
          /\ Forall (fun id => truthy_string id = true) ids).
Proof.
  intros Hc.
  destruct (configuration_fields rt argv env c Hc)
    as (_ & _ & _ & _ & _ & Hload & _ & Hvalid).
  apply validateConfig_returns in Hvalid as (Hk & Ha & Ht).
  split_and!; try done.
  - split.
    + intros [ids Hids]. rewrite Hids in Hload.
      apply loadAllowedBoardIds_returns_inv in Hload
        as (p & k & _ & _ & _ & -> & -> & Hp & Hkey & _).
      by split.
    + intros [Hp Hkey].
      destruct (trello_allowedBoardIds c) as [ids|] eqn:Hids; [by eexists |].
      exfalso. revert Hload. unfold loadAllowedBoardIds.
      destruct (trello_configPath c) as [p|], (trello_allowedBoardsKey c) as [k|];
        try done.
      simpl in Hp, Hkey. rewrite Hp, Hkey. simpl. by destruct (load_body rt p k).
  - intros cfg ids Hgate Hids. unfold gate_config in Hgate.
    destruct (trello_allowedBoardIds c) as [raw|] eqn:Hraw;
      [| by injection Hgate as <-].
    destruct (string_ids raw) as [ss|] eqn:Hss; [| done].
    injection Hgate as <-. simpl in Hids. injection Hids as <-.
    apply loadAllowedBoardIds_returns_inv in Hload
      as (p & k & _ & _ & boards & Hp & Hkey & Htp & Htk & _ & _ & _ & _ & Hall).
    exists p, k. simpl. rewrite Hp, Hkey. split_and!; try done.
    + unfold configSource. simpl. by rewrite Htp, Htk.
    + apply (string_ids_truthy raw); [done |].
      clear -Hall. induction Hall as [|? ? ? ? [_ ?]]; by constructor.
Qed.

Lemma configuration_sound_witness :
  truthy_string (trello_token sample_configuration) = true.
Proof.
  exact (proj1 (proj2 (proj2
           (configuration_sound sample_runtime sample_argv sample_env
                                sample_configuration eq_refl)))).
Defined.

(** X14. A YAML file whose key holds an empty sequence does not close the
    gate, it opens it.  With the three credentials set, the configuration
    loads, its allow-list is the empty list, and [checkBoardAccess] then
    never denies: with or without normalization it returns [true] as soon
    as its normalization step has returned, and the only error it can
    throw is the one of an identifier that does not resolve. *)
Theorem empty_sequence_opens_gate (rt : Runtime) (argv : list string)
  (env : gmap string string) (path key fileContents : string) (document : Document) :
  setting argv env "TRELLO_MCP_CONFIG_PATH" = Some path ->
  setting argv env "TRELLO_ALLOWED_BOARDS_KEY" = Some key ->
  truthy_string path = true ->
  truthy_string key = true ->
  existsSync rt path = true ->
  readFileSync rt path = inr fileContents ->
  yaml_load rt fileContents = inr document ->
  read_document rt document key = inr (YSeq []) ->
  truthy_string (or_default (setting argv env "API_KEY") "") = true ->
  truthy_string (or_default (setting argv env "TRELLO_API_KEY") "") = true ->
  truthy_string (or_default (setting argv env "TRELLO_TOKEN") "") = true ->
  exists c cfg,
    configuration rt argv env = Returned c
    /\ trello_allowedBoardIds c = Some []
    /\ gate_config c = Some cfg
    /\ allowedBoardIds cfg = Some []
    /\ forall (R : Type) (svc : Services R) (st : State R) boardId operation,
        config st = cfg ->
        checkBoardAccess svc boardId operation false st = (Returned true, st)
        /\ (forall canonical st1,
              fetchBoardNormalId svc boardId st = (Returned canonical, st1) ->
              checkBoardAccess svc boardId operation true st = (Returned true, st1))
        /\ (forall fetchNormalBoardId e,
              fst (checkBoardAccess svc boardId operation fetchNormalBoardId st) = Threw e ->
              fetchNormalBoardId = true
              /\ fst (fetchBoardNormalId svc boardId st) = Threw e
              /\ e = new_BoardAccessError boardId "getBoard" "board_not_found").
Proof.
  intros Hp Hk Htp Htk Hex Hread Hparse Hprop Hc1 Hc2 Hc3.
  assert (loadAllowedBoardIds rt (Some path) (Some key) = Returned (Some [])) as Hload.
  { unfold loadAllowedBoardIds, load_body.
    by rewrite Htp, Htk, Hex, Hread, Hparse, Hprop. }
  assert (exists c, configuration rt argv env = Returned c
                    /\ trello_allowedBoardIds c = Some []
                    /\ trello_configPath c = Some path
                    /\ trello_allowedBoardsKey c = Some key) as (c & Hc & Hids & Hcp & Hck).
  { unfold configuration. cbv zeta. unfold setting in *.
    rewrite Hp, Hk, Hload. unfold validateConfig. simpl.
    rewrite Hc1, Hc2, Hc3. simpl. by eexists. }
  exists c. eexists. unfold gate_config. rewrite Hids. simpl.
  split_and!; try done.
  intros R svc st b op Hcfg.
  assert (forall n canonical st1,
             normalization_step svc b n st = (Returned canonical, st1) ->
             checkBoardAccess svc b op n st = (Returned true, st1)) as Hpermit.
  { intros n canonical st1 Hn. eapply checkBoardAccess_open; [done |].
    pose proof (normalization_step_config svc st b n) as Hsame.
    rewrite Hn in Hsame. simpl in Hsame. right. by rewrite Hsame, Hcfg. }
  split_and!.
  - by apply (Hpermit false b st).
  - intros canonical st1 Hn. by apply (Hpermit true canonical st1).
  - intros n e He.
    destruct (normalization_step svc b n st) as [[canonical|e'] st1] eqn:Hn.
    + rewrite (Hpermit n canonical st1 Hn) in He. discriminate.
    + rewrite (checkBoardAccess_unresolved svc _ _ _ op _ _ Hn) in He.
      simpl in He. injection He as ->.
      destruct n; simpl in Hn; [| discriminate].
      split; [done |]. rewrite Hn. split; [done |].
      by eapply fetchBoardNormalId_throws.
Qed.

(** Under the key [none] of [boards.yaml] the configuration loads and
    board [B3], which the key [work] leaves out, is open. *)
Lemma empty_sequence_opens_gate_witness :
  configuration sample_runtime sample_argv sample_env = Returned sample_configuration
  /\ checkBoardAccess trelloServices "b3" "create_list" true
       (initial_state
          (mkConfig (Some "boards.yaml") (Some "none") (Some []) false) sample_trello)
     = (Returned true,
        snd (fetchBoardNormalId trelloServices "b3"
               (initial_state
                  (mkConfig (Some "boards.yaml") (Some "none") (Some []) false)
                  sample_trello))).
Proof.
  destruct (empty_sequence_opens_gate sample_runtime sample_argv sample_env
              "boards.yaml" "none" "work: ..."
              (DocMapping
                 [("work", YSeq [YMap [("name", YScalar (JsString "Work"));
                                       ("id", YScalar (JsString "B1"))]]);
                  ("none", YSeq [])])
              eq_refl eq_refl eq_refl eq_refl eq_refl eq_refl eq_refl eq_refl
              eq_refl eq_refl eq_refl)
    as (c & cfg & Hc & _ & Hgate & _ & Hopen).
  assert (c = sample_configuration) as ->
    by (vm_compute in Hc; injection Hc as <-; reflexivity).
  split; [exact Hc |].
  assert (cfg = mkConfig (Some "boards.yaml") (Some "none") (Some []) false) as ->
    by (vm_compute in Hgate; injection Hgate as <-; reflexivity).
  apply (proj1 (proj2 (Hopen Trello trelloServices
                         (initial_state
                            (mkConfig (Some "boards.yaml") (Some "none") (Some []) false)
                            sample_trello)
                         "b3" "create_list" eq_refl)) "B3").
  vm_compute. reflexivity.
Defined.

(** X15. The order of the start-up failures.  An error of
    [loadAllowedBoardIds] is the error of the module, also when
    credentials are missing.  When the allow-list loads, the module fails
    exactly when one of [API_KEY], [TRELLO_API_KEY], [TRELLO_TOKEN] is
    missing or empty, with a message that lists the missing names in that
    order. *)
Theorem configuration_failures (rt : Runtime) (argv : list string)
  (env : gmap string string) :
  let load := loadAllowedBoardIds rt (setting argv env "TRELLO_MCP_CONFIG_PATH")
                                  (setting argv env "TRELLO_ALLOWED_BOARDS_KEY") in
  let missing :=
    List.filter (fun name => negb (truthy_string (or_default (setting argv env name) "")))
                ["API_KEY"; "TRELLO_API_KEY"; "TRELLO_TOKEN"] in
  (forall e, load = Threw e -> configuration rt argv env = Threw e)
  /\ (forall ids,
        load = Returned ids ->
        (missing = [] -> exists c, configuration rt argv env = Returned c
                                   /\ trello_allowedBoardIds c = ids)
        /\ (missing <> [] ->
            configuration rt argv env
            = Threw (Error ("Missing required environment variables: "
                            +:+ join ", " missing)))).
Proof.
  intros load missing. unfold load, missing, configuration.
  cbv zeta. unfold setting. split.
  - by intros e ->.
  - intros ids ->. unfold validateConfig. simpl.
    repeat match goal with
           | |- context [truthy_string (or_default ?x "")] =>
               destruct (truthy_string (or_default x ""))
           end;
      simpl; split; try done; intros _; by eexists.
Qed.

Lemma configuration_failures_witness :
  configuration sample_runtime ["node"; "index.js"]
                {["TRELLO_API_KEY" := "a"]}
  = Threw (Error "Missing required environment variables: API_KEY, TRELLO_TOKEN").
Proof.
  refine (proj2 (proj2 (configuration_failures sample_runtime ["node"; "index.js"]
                          {["TRELLO_API_KEY" := "a"]}) None _) _).
  - reflexivity.
  - discriminate.
Defined.

(** ** Aliases and retries *)

Lemma checkBoardAccess_answer {R} (svc : Services R) (st st1 : State R)
  (b op c : string) (n : bool) :
  normalization_step svc b n st = (Returned c, st1) ->
  fst (checkBoardAccess svc b op n st)
  = match allowedBoardIds (config st) with
    | None => Returned true
    | Some ids =>
        if (length ids =? 0)%nat then Returned true
        else if includes ids c then Returned true
        else Threw (new_BoardAccessError c op (interpolate (allowedBoardsKey (config st))))
    end.
Proof.
  intros Hn.
  pose proof (normalization_step_config svc st b n) as Hcfg.
  rewrite Hn in Hcfg. simpl in Hcfg. rewrite <- Hcfg.
  destruct (allowedBoardIds (config st1)) as [ids|] eqn:Hids.
  - destruct ids as [|i ids'] eqn:Heq.
    + by rewrite (checkBoardAccess_open svc st st1 b op c n Hn) by (by right).
    + rewrite <- Heq in *. assert (ids <> []) as Hne by (by subst).
      replace (length ids =? 0)%nat with false by (by subst).
      destruct (includes ids c) eqn:Hin.
      * apply includes_elem_of in Hin.
        by rewrite (checkBoardAccess_member svc st st1 b op c n ids Hn Hids Hin).
      * apply includes_not_elem_of in Hin.
        by rewrite (checkBoardAccess_denied svc st st1 b op c n ids Hn Hids Hne Hin).
  - by rewrite (checkBoardAccess_open svc st st1 b op c n Hn) by (by left).
Qed.

(** X16. The answer of [checkBoardAccess] depends on the identifier only
    through the canonical id it resolves to: two identifiers of the same
    board get the same answer, the same [true] or the same denial, which
    names the canonical id and neither of the two.  In particular, listing
    a short id in the allow-list does not admit the board. *)
Theorem checkBoardAccess_aliases {R} (svc : Services R) (st sa sb : State R)
  (a b canonical operation : string) :
  fetchBoardNormalId svc a st = (Returned canonical, sa) ->
  fetchBoardNormalId svc b st = (Returned canonical, sb) ->
  fst (checkBoardAccess svc a operation true st)
  = fst (checkBoardAccess svc b operation true st)
  /\ (forall ids,
        allowedBoardIds (config st) = Some ids ->
        a ∈ ids -> canonical ∉ ids ->
        fst (checkBoardAccess svc a operation true st)
        = Threw (new_BoardAccessError canonical operation
                   (interpolate (allowedBoardsKey (config st))))).
Proof.
  intros Ha Hb.
  rewrite (checkBoardAccess_answer svc st sa a operation canonical true Ha).
  rewrite (checkBoardAccess_answer svc st sb b operation canonical true Hb).
  split; [done |].
  intros ids -> Hin Hnin.
  destruct ids as [|i ids']; [by apply elem_of_nil in Hin |].
  apply includes_not_elem_of in Hnin. simpl length. simpl Nat.eqb.
  by rewrite Hnin.
Qed.

(** Listing the short id [b1] does not admit the board [B1]. *)
Lemma checkBoardAccess_aliases_witness :
  fst (checkBoardAccess trelloServices "b1" "create_list" true
         (initial_state (mkConfig (Some "boards.yaml") (Some "work") (Some ["b1"]) false)
                        sample_trello))
  = Threw (new_BoardAccessError "B1" "create_list" "work").
Proof.
  refine (proj2 (checkBoardAccess_aliases trelloServices
                   (initial_state
                      (mkConfig (Some "boards.yaml") (Some "work") (Some ["b1"]) false)
                      sample_trello)
                   (snd (fetchBoardNormalId trelloServices "b1"
                           (initial_state
                              (mkConfig (Some "boards.yaml") (Some "work") (Some ["b1"])
                                        false)
                              sample_trello)))
                   (snd (fetchBoardNormalId trelloServices "B1"
                           (initial_state
                              (mkConfig (Some "boards.yaml") (Some "work") (Some ["b1"])
                                        false)
                              sample_trello)))
                   "b1" "B1" "B1" "create_list" _ _) ["b1"] _ _ _).
  - vm_compute. reflexivity.
  - vm_compute. reflexivity.
  - reflexivity.
  - apply includes_elem_of. reflexivity.
  - apply includes_not_elem_of. reflexivity.
Defined.

(** X17. A failed resolution can be retried: nothing was stored, so in
    any later state with the same cache the next call of
    [fetchBoardNormalId] for the identifier asks the remote system again,
    and resolves and caches the identifier when the lookup then succeeds. *)
Theorem fetchBoardNormalId_retry {R} (svc svc' : Services R) (st st1 st2 : State R)
  (input : string) (e : exn) (board : Board) (w : R) :
  fetchBoardNormalId svc input st = (Threw e, st1) ->
  boardIdCache st2 = boardIdCache st1 ->
  getBoard svc' input (remote st2) = (inr board, w) ->
  let retry := fetchBoardNormalId svc' input st2 in
  fst retry = Returned (board_id board)
  /\ calls (snd retry) = calls st2 ++ [CallGetBoard input]
  /\ boardIdCache (snd retry) = <[input := board_id board]> (boardIdCache st).
Proof.
  intros Hfail Hcache Hb retry. unfold retry.
  destruct (fetchBoardNormalId_cases svc st input)
    as [(c & _ & Heq) | [(x & w' & _ & _ & Heq) | (f & w' & Hk & _ & Heq)]];
    rewrite Heq in Hfail; simplify_eq.
  simpl in Hcache.
  rewrite (fetchBoardNormalId_resolved svc' st2 input board w) by (done || congruence).
  simpl. by rewrite Hcache.
Qed.

(** The board [new] is unknown at first and resolves once it exists. *)
Lemma fetchBoardNormalId_retry_witness :
  let st := initial_state sample_config sample_trello in
  let st1 := snd (fetchBoardNormalId trelloServices "new" st) in
  let later := mkState (config st1) (boardIdCache st1)
                       (mkTrello [("new", "B9")] [] []) (calls st1) (console st1) in
  fst (fetchBoardNormalId trelloServices "new" later) = Returned "B9".
Proof.
  intros st st1 later.
  refine (proj1 (fetchBoardNormalId_retry trelloServices trelloServices
                   st st1 later "new"
                   (new_BoardAccessError "new" "getBoard" "board_not_found")
                   (mkBoard "B9") (mkTrello [("new", "B9")] [] []) _ _ _)).
  - vm_compute. reflexivity.
  - reflexivity.
  - reflexivity.
Defined.
